(** * An LRU cache over a circular doubly linked list (cache.py)

    The development embeds [cache.py] in Rocq and settles the properties
    stated about it.  Python objects live in an explicit store: a
    [ListHead] instance is a location of the store, its four attributes
    are a record kept at that location, and the methods that assign to
    attributes are store transformers.  The [LRUCache] object owns the
    store of its nodes together with its own four attributes. *)

From stdpp Require Import gmap list.

Set Default Proof Using "Type".

(** Object identity of a [ListHead] instance ([is] compares these). *)
Definition loc := nat.

(** How a statement of the program ends.  [KeyError] is the only exception
    the code can raise by itself ([self.cache[key]] and
    [del self.cache[node.key]] on a missing key).  [BadRef] stands for the
    dereference of a location that holds no object; Python references are
    always live, so it is there only to keep the embedding total, and the
    lemma [reachable_no_BadRef] shows that it never happens. *)
Inductive exn := KeyError | BadRef.

Inductive outcome (A : Type) :=
  | Ret (a : A)
  | Raise (e : exn).
Arguments Ret {A} a.
Arguments Raise {A} e.

(** Methods run in a state and exception monad over the object they are
    called on: a raised exception leaves the assignments made before it
    in place. *)
Definition M (S A : Type) : Type := S → outcome A * S.

Definition ret {S A} (a : A) : M S A := λ self, (Ret a, self).
Definition raise {S A} (e : exn) : M S A := λ self, (Raise e, self).
Definition bind {S A B} (m : M S A) (f : A → M S B) : M S B := λ self,
  match m self with
  | (Ret a, self') => f a self'
  | (Raise e, self') => (Raise e, self')
  end.

#[global] Instance M_ret {S} : MRet (M S) := @ret S.
#[global] Instance M_bind {S} : MBind (M S) := λ A B f m, bind m f.

(** ** class ListHead *)

Module ListHead.
Section ListHead.
Context {K V : Type}.

Record t := mk { prev : loc; next : loc; key : K; value : V }.

Local Abbreviation heap := (gmap loc t).

(** A [ListHead] defines neither [__nonzero__] nor [__len__]: in a
    boolean context ([if self.prev], [while node]) an instance is true. *)
Definition truthy (node : loc) : bool := true.

(** [obj.prev = v] and [obj.next = v]. *)
Definition set_prev (obj v : loc) (h : heap) : option heap :=
  nd ← h !! obj; Some (<[obj := mk v (next nd) (key nd) (value nd)]> h).

Definition set_next (obj v : loc) (h : heap) : option heap :=
  nd ← h !! obj; Some (<[obj := mk (prev nd) v (key nd) (value nd)]> h).

(** [ListHead(key, value)]: a new object, linked to itself. *)
Definition __init__ (k : K) (v : V) (h : heap) : loc * heap :=
  let self := fresh (dom h) in
  (self, <[self := mk self self k v]> h).

(** Remove a node from a list. *)
Definition unlink (self : loc) (h : heap) : option heap :=
  nd ← h !! self;
  h ← (if truthy (prev nd) && bool_decide (prev nd ≠ self)
       then set_next (prev nd) (next nd) h else Some h);
  nd ← h !! self;
  if truthy (next nd) && bool_decide (next nd ≠ self)
  then set_prev (next nd) (prev nd) h else Some h.

(** Insert a new node after this one. *)
Definition append (self node : loc) (h : heap) : option heap :=
  nd ← h !! self;
  h ← (if truthy (next nd)
       then h ← set_prev (next nd) node h; set_next node (next nd) h
       else Some h);
  h ← set_prev node self h;
  set_next self node h.

(** Insert a new node in front of this one. *)
Definition prepend (self node : loc) (h : heap) : option heap :=
  nd ← h !! self;
  h ← (if truthy (prev nd)
       then h ← set_next (prev nd) node h;
            nd ← h !! self;
            set_prev node (prev nd) h
       else Some h);
  h ← set_prev self node h;
  set_next node self h.
End ListHead.
Arguments t : clear implicits.
End ListHead.

(** ** class LRUCache *)

Module LRUCache.
Section LRUCache.
Context {K V : Type} `{Countable K}.

(** [nodes] is the store of the [ListHead] objects created by this
    cache; the other four fields are the attributes of the object. *)
Record t := mk {
  nodes : gmap loc (ListHead.t K V);
  cache : gmap K loc;
  queue : option loc;
  size : Z;
  maxsize : Z
}.

Definition gets {A} (f : t → A) : M t A := λ self, (Ret (f self), self).
Definition set_nodes h : M t unit := λ self,
  (Ret (), mk h (cache self) (queue self) (size self) (maxsize self)).
Definition set_cache c : M t unit := λ self,
  (Ret (), mk (nodes self) c (queue self) (size self) (maxsize self)).
Definition set_queue q : M t unit := λ self,
  (Ret (), mk (nodes self) (cache self) q (size self) (maxsize self)).
Definition set_size n : M t unit := λ self,
  (Ret (), mk (nodes self) (cache self) (queue self) n (maxsize self)).

(** Reading an attribute of a node, and calling a [ListHead] method. *)
Definition attr {A} (f : ListHead.t K V → A) (node : loc) : M t A := λ self,
  match nodes self !! node with
  | Some nd => (Ret (f nd), self)
  | None => (Raise BadRef, self)
  end.
Definition call
    (method : gmap loc (ListHead.t K V) → option (gmap loc (ListHead.t K V)))
    : M t unit := λ self,
  match method (nodes self) with
  | Some h => set_nodes h self
  | None => (Raise BadRef, self)
  end.

(** [del self.cache[k]] raises [KeyError] when [k] is not a key. *)
Definition del_cache (k : K) : M t unit :=
  c ← gets cache;
  match c !! k with
  | Some _ => set_cache (delete k c)
  | None => raise KeyError
  end.

(** [ListHead(key, value)] evaluated inside a method. *)
Definition new_node (k : K) (v : V) : M t loc := λ self,
  let '(node, h) := ListHead.__init__ k v (nodes self) in
  (Ret node, mk h (cache self) (queue self) (size self) (maxsize self)).

(** [LRUCache(maxsize)]: the constructor has no check and no [raise]. *)
Definition __init__ (maxsize : Z) : outcome t :=
  Ret (mk ∅ ∅ None 0 maxsize).

(** Push a node to beginning of queue. *)
Definition _update_node (node : loc) : M t unit :=
  q ← gets queue;
  match q with
  | Some q =>
      if bool_decide (node ≠ q)
      then call (ListHead.unlink node);; call (ListHead.prepend q node)
      else ret ()
  | None => ret ()
  end;;
  set_queue (Some node).

(** Delete oldest item from cache. *)
Definition _delete_oldest : M t unit :=
  q ← gets queue;
  match q with
  | Some q =>
      node ← attr ListHead.prev q;
      k ← attr ListHead.key node;
      del_cache k;;
      call (ListHead.unlink node);;
      n ← gets size;
      set_size (n - 1)
  | None => ret ()
  end.

Definition __getitem__ (key : K) : M t V :=
  c ← gets cache;
  match c !! key with
  | Some node => _update_node node;; attr ListHead.value node
  | None => raise KeyError
  end.

Definition __setitem__ (key : K) (value : V) : M t unit :=
  node ← new_node key value;
  c ← gets cache;
  set_cache (<[key := node]> c);;
  _update_node node;;
  n ← gets size;
  set_size (n + 1);;
  n ← gets size;
  m ← gets maxsize;
  if bool_decide (n > m)%Z then _delete_oldest else ret ().

Definition __contains__ (key : K) : M t bool :=
  c ← gets cache;
  ret (bool_decide (is_Some (c !! key))).

Definition __len__ : M t Z := gets size.

(** Generators.  The frame of a suspended generator holds its local
    [node]; [resume] runs it up to the next [yield] (some value) or to
    the end of the body ([None], that is [StopIteration]). *)
Inductive frame := Created | Suspended (node : loc) | Finished.

Definition resume {A} (f : ListHead.t K V → A) (fr : frame)
    : M t (option A * frame) :=
  match fr with
  | Created =>
      q ← gets queue;
      match q with
      | Some node => a ← attr f node; ret (Some a, Suspended node)
      | None => ret (None, Finished)
      end
  | Suspended node =>
      node ← attr ListHead.next node;
      if ListHead.truthy node
      then a ← attr f node; ret (Some a, Suspended node)
      else ret (None, Finished)
  | Finished => ret (None, Finished)
  end.

(** Iterator over the cache in order of use. *)
Definition __iter__ : frame → M t (option K * frame) :=
  resume ListHead.key.

Definition iteritems : frame → M t (option (K * V) * frame) :=
  resume (λ nd, (ListHead.key nd, ListHead.value nd)).

(** The [while node is not self.queue] loop of [items]; [None] when the
    loop is still running after [fuel] iterations. *)
Fixpoint items_loop (fuel : nat) (q node : loc) (result : list (K * V))
    : M t (option (list (K * V))) :=
  if bool_decide (node ≠ q) then
    match fuel with
    | O => ret None
    | S fuel =>
        k ← attr ListHead.key node;
        v ← attr ListHead.value node;
        node ← attr ListHead.next node;
        items_loop fuel q node (result ++ [(k, v)])
    end
  else ret (Some result).

Definition items (fuel : nat) : M t (option (list (K * V))) :=
  q ← gets queue;
  match q with
  | None => ret (Some [])
  | Some q =>
      k ← attr ListHead.key q;
      v ← attr ListHead.value q;
      node ← attr ListHead.next q;
      items_loop fuel q node [(k, v)]
  end.
End LRUCache.
Arguments t K V {_ _}.
Arguments frame : clear implicits.
End LRUCache.

(** ** def lru_cache

    [cache] in the closure is a dict or an [LRUCache]; [cached_func] uses
    it through [key in cache], [cache[key]] and [cache[key] = value]
    only, which both kinds of object provide. *)

Class Mapping (Key Val C : Type) := {
  map_contains : Key → M C bool;
  map_getitem : Key → M C Val;
  map_setitem : Key → Val → M C unit
}.

#[global] Instance dict_mapping {Key Val} `{Countable Key} :
    Mapping Key Val (gmap Key Val) := {|
  map_contains key := λ d, (Ret (bool_decide (is_Some (d !! key))), d);
  map_getitem key := λ d,
    match d !! key with
    | Some v => (Ret v, d)
    | None => (Raise KeyError, d)
    end;
  map_setitem key v := λ d, (Ret (), <[key := v]> d)
|}.

#[global] Instance lru_mapping {Key Val} `{Countable Key} :
    Mapping Key Val (LRUCache.t Key Val) := {|
  map_contains := LRUCache.__contains__;
  map_getitem := LRUCache.__getitem__;
  map_setitem := LRUCache.__setitem__
|}.

Section lru_cache.
Context {Args Kw B : Type} `{Countable Args, Countable Kw}.

(** What the name [cache] is bound to. *)
Inductive backing :=
  | Dict (d : gmap (Args * Kw) B)
  | Lru (c : LRUCache.t (Args * Kw) B).

(** The positional arguments are the tuple [args]; the keyword arguments
    are given by [kwargs.items()], the tuple [kwargs] here. *)
Definition cached_func {C} `{Mapping (Args * Kw) B C}
    (func : Args → Kw → B) (args : Args) (kwargs : Kw) : M C B :=
  let key := (args, kwargs) in
  hit ← map_contains key;
  if hit : bool then map_getitem key
  else map_setitem key (func args kwargs);; map_getitem key.

(** [maxsize] is [None] (also when omitted) or an integer; [None] and [0]
    are false in [if maxsize].  The result is the object captured by the
    returned closure. *)
Definition lru_cache (maxsize : option Z) : outcome backing :=
  match maxsize with
  | Some m =>
      if bool_decide (m ≠ 0)%Z then
        match LRUCache.__init__ m with
        | Ret c => Ret (Lru c)
        | Raise e => Raise e
        end
      else Ret (Dict ∅)
  | None => Ret (Dict ∅)
  end.

(** One call of the function that [lru_cache] returned. *)
Definition call_cached (func : Args → Kw → B) (args : Args) (kwargs : Kw)
    : M backing B := λ cache,
  match cache with
  | Dict d => let '(o, d') := cached_func func args kwargs d in (o, Dict d')
  | Lru c => let '(o, c') := cached_func func args kwargs c in (o, Lru c')
  end.

(** A sequence of calls, collecting the values returned. *)
Fixpoint calls (func : Args → Kw → B) (cs : list (Args * Kw))
    : M backing (list B) :=
  match cs with
  | [] => ret []
  | (args, kwargs) :: cs =>
      b ← call_cached func args kwargs;
      bs ← calls func cs;
      ret (b :: bs)
  end.
End lru_cache.
Arguments backing Args Kw B {_ _ _ _}.
(** * Vocabulary of the proofs

    The recency list is a circular doubly linked list.  It is described
    by segments: [dlseg h i i' l j j'] says that the nodes [l] are chained
    in the store [h], the first one being [i] with [i'] as its [prev], the
    last one being [j'] with [j] as its [next].  [rep self l] relates the
    object to the list [l] of its nodes, from the most to the least
    recently used one. *)

Section Vocabulary.
Context {K V : Type} `{Countable K}.
Implicit Types (h : gmap loc (ListHead.t K V)) (l : list loc).
Implicit Types (nd : ListHead.t K V) (self s : LRUCache.t K V).

Definition upd_prev (v : loc) nd : ListHead.t K V :=
  ListHead.mk v (ListHead.next nd) (ListHead.key nd) (ListHead.value nd).
Definition upd_next (v : loc) nd : ListHead.t K V :=
  ListHead.mk (ListHead.prev nd) v (ListHead.key nd) (ListHead.value nd).

Definition kv nd : K * V := (ListHead.key nd, ListHead.value nd).

(** Two stores hold the same objects with the same keys and values. *)
Definition same_data h h' : Prop := ∀ a, kv <$> h' !! a = kv <$> h !! a.

Fixpoint dlseg h (i i' : loc) l (j j' : loc) : Prop :=
  match l with
  | [] => i = j ∧ i' = j'
  | a :: t =>
      a = i ∧ ∃ nd, h !! a = Some nd ∧ ListHead.prev nd = i' ∧
                    dlseg h (ListHead.next nd) a t j j'
  end.

(** [l] is a cycle of [h], read from its first node along [next]. *)
Definition cyc h l : Prop :=
  NoDup l ∧
  match l with
  | [] => True
  | q :: _ => ∃ z, dlseg h q z l q z
  end.

Definition rep s l : Prop :=
  LRUCache.queue s = head l ∧ cyc (LRUCache.nodes s) l.

(** The keys and values held by the nodes [l], in the order of [l]. *)
Definition entries h l : list (K * V) := omap (λ a, kv <$> h !! a) l.

(** The values a generator yields in its first [n] resumptions (what
    [itertools.islice(gen, n)] or a [zip] with [n] items consumes),
    and the frame it is left in. *)
Fixpoint islice {A}
    (gen : LRUCache.frame → M (LRUCache.t K V) (option A * LRUCache.frame))
    (n : nat) (fr : LRUCache.frame) s : list A * LRUCache.frame :=
  match n with
  | O => ([], fr)
  | S n =>
      match gen fr s with
      | (Ret (Some a, fr'), s') =>
          let '(r, fr'') := islice gen n fr' s' in (a :: r, fr'')
      | (Ret (None, fr'), _) => ([], fr')
      | (Raise _, _) => ([], fr)
      end
  end.

(** The states an object goes through: built by the constructor, then
    changed by the public methods, whether they return or raise. *)
Inductive reachable (c : Z) : LRUCache.t K V → Prop :=
  | reach_init : reachable c (LRUCache.mk ∅ ∅ None 0 c)
  | reach_setitem s k v :
      reachable c s → reachable c (LRUCache.__setitem__ k v s).2
  | reach_getitem s k :
      reachable c s → reachable c (LRUCache.__getitem__ k s).2
  | reach_contains s k :
      reachable c s → reachable c (LRUCache.__contains__ k s).2
  | reach_len s :
      reachable c s → reachable c (LRUCache.__len__ s).2
  | reach_items s fuel :
      reachable c s → reachable c (LRUCache.items fuel s).2
  | reach_iter s fr :
      reachable c s → reachable c (LRUCache.__iter__ fr s).2
  | reach_iteritems s fr :
      reachable c s → reachable c (LRUCache.iteritems fr s).2.

(** The nodes form a cycle that [queue] enters at its first node, and
    every node of the dict is in the cycle, filed under its own key. *)
Definition inv s : Prop :=
  ∃ l, rep s l ∧
       ∀ k n, LRUCache.cache s !! k = Some n →
              n ∈ l ∧ ∃ nd, LRUCache.nodes s !! n = Some nd ∧
                            ListHead.key nd = k.

(** [for key, value in kvs: cache[key] = value]. *)
Fixpoint puts (kvs : list (K * V)) : M (LRUCache.t K V) unit :=
  match kvs with
  | [] => ret ()
  | (k, v) :: kvs => LRUCache.__setitem__ k v;; puts kvs
  end.

(** The object holds exactly the entries [kvs], most recently used
    first, each key once: the list has one node per entry, the dict maps
    each key to its node, and [size] counts them. *)
Definition good s (kvs : list (K * V)) : Prop :=
  ∃ l, rep s l ∧ entries (LRUCache.nodes s) l = kvs ∧ NoDup kvs.*1 ∧
       LRUCache.cache s = list_to_map (zip kvs.*1 l) ∧
       LRUCache.size s = Z.of_nat (length l).

(** ** The cache seen as a list of entries

    What a client does with the cache, one operation after the other,
    catching the [KeyError] of a failed lookup; each operation gives its
    outcome ([Some] value for a lookup that returns). *)
Inductive op := Put (k : K) (v : V) | Get (k : K).

Definition exec_op (o : op) : M (LRUCache.t K V) (option V) :=
  match o with
  | Put k v => LRUCache.__setitem__ k v;; ret None
  | Get k => v ← LRUCache.__getitem__ k; ret (Some v)
  end.

Fixpoint exec (ops : list op) s
    : list (outcome (option V)) * LRUCache.t K V :=
  match ops with
  | [] => ([], s)
  | o :: ops =>
      let '(r, s') := exec_op o s in
      let '(rs, s'') := exec ops s' in
      (r :: rs, s'')
  end.

(** The same operations on a plain list of entries, most recently used
    first, of at most [c] entries: a lookup moves the entry found to the
    front, an insertion puts the new entry in front and drops what
    exceeds [c] at the end. *)
Fixpoint lru_take (k : K) (kvs : list (K * V))
    : option (V * list (K * V)) :=
  match kvs with
  | [] => None
  | (k', v') :: kvs =>
      if decide (k = k') then Some (v', kvs)
      else '(v, rest) ← lru_take k kvs; Some (v, (k', v') :: rest)
  end.

Definition lru_step (c : Z) (o : op) (kvs : list (K * V))
    : outcome (option V) * list (K * V) :=
  match o with
  | Put k v => (Ret None, take (Z.to_nat c) ((k, v) :: kvs))
  | Get k =>
      match lru_take k kvs with
      | Some (v, rest) => (Ret (Some v), (k, v) :: rest)
      | None => (Raise KeyError, kvs)
      end
  end.

Fixpoint lru_run (c : Z) (ops : list op) (kvs : list (K * V))
    : list (outcome (option V)) * list (K * V) :=
  match ops with
  | [] => ([], kvs)
  | o :: ops =>
      let '(r, kvs') := lru_step c o kvs in
      let '(rs, kvs'') := lru_run c ops kvs' in
      (r :: rs, kvs'')
  end.

(** No key is inserted while it is in the list. *)
Fixpoint disciplined (c : Z) (ops : list op) (kvs : list (K * V)) : Prop :=
  match ops with
  | [] => True
  | o :: ops =>
      match o with Put k _ => k ∉ kvs.*1 | Get _ => True end ∧
      disciplined c ops (lru_step c o kvs).2
  end.
End Vocabulary.
Arguments op : clear implicits.

(** ** Runs on integer keys and values *)

Definition new (c : Z) : LRUCache.t Z Z := LRUCache.mk ∅ ∅ None 0 c.

(** [cache[7] = 1] on a new cache of capacity 1. *)
Definition one_entry : LRUCache.t Z Z :=
  (LRUCache.__setitem__ 7%Z 1%Z (new 1)).2.

(** [cache[7] = 1; cache[7] = 2] on a new cache of capacity [c]. *)
Definition put_twice (c : Z) : LRUCache.t Z Z :=
  (puts [(7, 1); (7, 2)]%Z (new c)).2.

(** [cache[7] = 1; cache[7] = 2; cache[8] = 3] on a new cache of
    capacity 1, with the outcome of the run. *)
Definition put_thrice : outcome () * LRUCache.t Z Z :=
  puts [(7, 1); (7, 2); (8, 3)]%Z (new 1).

(** [put(0,0); put(1,10); put(2,20)] on a new cache of capacity 3. *)
Definition three_entries : LRUCache.t Z Z :=
  (puts [(0, 0); (1, 10); (2, 20)]%Z (new 3)).2.


(** Two objects linked to themselves: a cycle of one node and a node
    beside it. *)
Definition two_lone_nodes : gmap loc (ListHead.t Z Z) :=
  <[1 := ListHead.mk 1 1 8%Z 2%Z]> (<[0 := ListHead.mk 0 0 7%Z 1%Z]> ∅).
(** * The shape of the store *)

Section Shape.
Context {K V : Type}.
Implicit Types (h : gmap loc (ListHead.t K V)) (l : list loc).
Implicit Types (nd : ListHead.t K V).

Lemma same_data_refl h : same_data h h.
Proof. by intros a. Qed.

Lemma same_data_trans h1 h2 h3 :
  same_data h1 h2 → same_data h2 h3 → same_data h1 h3.
Proof. intros H12 H23 a. by rewrite H23, H12. Qed.

Lemma same_data_insert h a nd nd' :
  h !! a = Some nd → kv nd' = kv nd → same_data h (<[a:=nd']> h).
Proof.
  intros Ha Hkv b. destruct (decide (a = b)) as [<-|Hne].
  - rewrite lookup_insert_eq, Ha. simpl. by rewrite Hkv.
  - by rewrite lookup_insert_ne.
Qed.

Lemma same_data_lookup h h' a nd :
  same_data h h' → h !! a = Some nd →
  ∃ nd', h' !! a = Some nd' ∧ kv nd' = kv nd.
Proof.
  intros Hs Ha. specialize (Hs a). rewrite Ha in Hs.
  destruct (h' !! a) as [nd'|]; simplify_eq/=. exists nd'.
  split; [done|]. unfold kv. congruence.
Qed.

Lemma same_data_dom h h' : same_data h h' → dom h' = dom h.
Proof.
  intros Hs. apply set_eq. intros a. rewrite !elem_of_dom.
  specialize (Hs a). destruct (h !! a), (h' !! a); simplify_eq/=;
    split; intros [? ?]; by simplify_eq.
Qed.

Lemma dlseg_frame h h' i i' l j j' :
  (∀ a, a ∈ l → h' !! a = h !! a) →
  dlseg h i i' l j j' → dlseg h' i i' l j j'.
Proof.
  revert i i'. induction l as [|a t IH]; intros i i' Hf; simpl; [done|].
  intros [-> (nd & Hnd & Hp & Hs)]. split; [done|]. exists nd.
  rewrite Hf by left. split_and!; [done..|].
  apply IH; [|done]. intros b Hb. apply Hf. by right.
Qed.

Lemma dlseg_app h l1 l2 i i' j j' :
  dlseg h i i' (l1 ++ l2) j j' ↔
  ∃ m m', dlseg h i i' l1 m m' ∧ dlseg h m m' l2 j j'.
Proof.
  revert i i'. induction l1 as [|a t IH]; intros i i'; simpl.
  - split.
    + intros Hs. by exists i, i'.
    + by intros (m & m' & [-> ->] & Hs).
  - split.
    + intros [-> (nd & Hnd & Hp & Hs)].
      apply IH in Hs as (m & m' & H1 & H2). exists m, m'.
      split; [|done]. split; [done|]. by exists nd.
    + intros (m & m' & [-> (nd & Hnd & Hp & Hs)] & H2).
      split; [done|]. exists nd. split_and!; [done..|].
      apply IH. eauto.
Qed.

Lemma dlseg_snoc h t z i i' j j' :
  dlseg h i i' (t ++ [z]) j j' →
  j' = z ∧ ∃ nd, h !! z = Some nd ∧ ListHead.next nd = j.
Proof.
  rewrite dlseg_app. intros (m & m' & _ & Hz). simpl in Hz.
  destruct Hz as [-> (nd & Hnd & _ & <- & <-)]. eauto.
Qed.

Lemma dlseg_elem h i i' l j j' a :
  dlseg h i i' l j j' → a ∈ l → is_Some (h !! a).
Proof.
  revert i i'. induction l as [|b t IH]; intros i i' Hs Ha.
  - by apply elem_of_nil in Ha.
  - destruct Hs as [-> (nd & Hnd & _ & Hs)].
    apply elem_of_cons in Ha as [->|Ha]; eauto.
Qed.

Lemma dlseg_set_prev_head h q t i' j j' y nd :
  q ∉ t → h !! q = Some nd → dlseg h q i' (q :: t) j j' →
  dlseg (<[q := upd_prev y nd]> h) q y (q :: t) j j'.
Proof.
  intros Hq Hnd [_ (nd' & Hnd' & _ & Hs)]. simplify_eq.
  split; [done|]. exists (upd_prev y nd).
  rewrite lookup_insert_eq. split_and!; [done..|]. simpl.
  eapply dlseg_frame; [|done]. intros a Ha.
  apply lookup_insert_ne. by intros ->.
Qed.

Lemma dlseg_set_next_last h t z i i' j j' x nd :
  z ∉ t → h !! z = Some nd → dlseg h i i' (t ++ [z]) j j' →
  dlseg (<[z := upd_next x nd]> h) i i' (t ++ [z]) x j'.
Proof.
  intros Hz Hnd. revert i i'.
  induction t as [|a t IH]; intros i i'; simpl.
  - intros [-> (nd' & Hnd' & Hp & _ & ->)]. simplify_eq.
    split; [done|]. exists (upd_next x nd).
    by rewrite lookup_insert_eq.
  - intros [-> (nd' & Hnd' & Hp & Hs)].
    apply not_elem_of_cons in Hz as [Hne Hz].
    split; [done|]. exists nd'. rewrite lookup_insert_ne by done.
    split_and!; [done..|]. by apply IH.
Qed.

Lemma set_prev_Some h a v nd :
  h !! a = Some nd →
  ListHead.set_prev a v h = Some (<[a := upd_prev v nd]> h).
Proof. intros Ha. unfold ListHead.set_prev. by rewrite Ha. Qed.

Lemma set_next_Some h a v nd :
  h !! a = Some nd →
  ListHead.set_next a v h = Some (<[a := upd_next v nd]> h).
Proof. intros Ha. unfold ListHead.set_next. by rewrite Ha. Qed.

Lemma snoc_cases l : l ≠ [] → ∃ t z, l = t ++ [z].
Proof. destruct l as [|b t] using rev_ind; [done|eauto]. Qed.

(** [self.prepend(node)] on the first node [q] of a cycle, [node] being
    an object outside it: [node] becomes the predecessor of [q], that is
    the first node of the cycle read from [node]. *)
Lemma prepend_spec h q t z x ndx :
  NoDup (q :: t) → x ∉ q :: t → h !! x = Some ndx →
  dlseg h q z (q :: t) q z →
  ∃ h', ListHead.prepend q x h = Some h' ∧
        dlseg h' x z (x :: q :: t) x z ∧ same_data h h'.
Proof.
  intros Hnd Hx Hhx Hs.
  destruct (snoc_cases (q :: t)) as (t' & z' & Heq); [done|].
  assert (z = z' ∧ ∃ nd, h !! z' = Some nd ∧ ListHead.next nd = q)
    as [-> (ndz & Hz & _)].
  { rewrite Heq in Hs. exact (dlseg_snoc _ _ _ _ _ _ _ Hs). }
  assert (z' ∉ t') as Hzt.
  { rewrite Heq in Hnd. apply NoDup_app in Hnd as (_ & Hd & _).
    intros Hin. apply (Hd _ Hin). by left. }
  assert (x ≠ z') as Hxz.
  { intros ->. apply Hx. rewrite Heq, elem_of_app, list_elem_of_singleton.
    by right. }
  assert (x ≠ q) as Hxq.
  { intros ->. apply Hx. by left. }
  assert (q ∉ t) as Hqt by (by apply NoDup_cons in Hnd as [? ?]).
  assert (∃ nd, h !! q = Some nd ∧ ListHead.prev nd = z')
    as (ndq & Hq & Hpq).
  { destruct Hs as [_ (nd & ? & ? & _)]. eauto. }
  (* self.prev.next = node *)
  set (h1 := <[z' := upd_next x ndz]> h).
  assert (dlseg h1 q z' (q :: t) x z') as Hs1.
  { rewrite Heq. apply dlseg_set_next_last with (j := q); [done..|].
    by rewrite <-Heq. }
  assert (∃ nd, h1 !! q = Some nd ∧ ListHead.prev nd = z')
    as (ndq1 & Hq1 & Hpq1).
  { destruct Hs1 as [_ (nd & ? & ? & _)]. eauto. }
  (* node.prev = self.prev *)
  set (h2 := <[x := upd_prev z' ndx]> h1).
  assert (h1 !! x = Some ndx) as Hx1.
  { unfold h1. by rewrite lookup_insert_ne. }
  assert (dlseg h2 q z' (q :: t) x z') as Hs2.
  { eapply dlseg_frame; [|done]. intros a Ha. unfold h2.
    apply lookup_insert_ne. by intros ->. }
  (* self.prev = node *)
  set (h3 := <[q := upd_prev x ndq1]> h2).
  assert (h2 !! q = Some ndq1) as Hq2.
  { unfold h2. by rewrite lookup_insert_ne. }
  assert (dlseg h3 q x (q :: t) x z') as Hs3.
  { by apply dlseg_set_prev_head with (i' := z'). }
  (* node.next = self *)
  set (h4 := <[x := upd_next q (upd_prev z' ndx)]> h3).
  assert (h3 !! x = Some (upd_prev z' ndx)) as Hx3.
  { unfold h3. rewrite lookup_insert_ne by done.
    unfold h2. by rewrite lookup_insert_eq. }
  exists h4. split_and!.
  - unfold ListHead.prepend. rewrite Hq. simpl.
    rewrite Hpq, (set_next_Some _ _ _ _ Hz). simpl. fold h1.
    rewrite Hq1. simpl.
    rewrite Hpq1, (set_prev_Some _ _ _ _ Hx1). simpl. fold h2.
    rewrite (set_prev_Some _ _ _ _ Hq2). simpl. fold h3.
    by rewrite (set_next_Some _ _ _ _ Hx3).
  - split; [done|]. eexists. unfold h4. rewrite lookup_insert_eq.
    split_and!; [done..|].
    eapply dlseg_frame; [|exact Hs3]. intros a Ha.
    apply lookup_insert_ne. by intros ->.
  - eapply same_data_trans; [eapply same_data_trans;
      [eapply same_data_trans|]|]; eapply same_data_insert; done.
Qed.

(** [unlink] on a node that is linked to itself changes nothing. *)
Lemma unlink_self h n nd :
  h !! n = Some nd → ListHead.prev nd = n → ListHead.next nd = n →
  ListHead.unlink n h = Some h.
Proof.
  intros Hn Hp Hx. unfold ListHead.unlink. rewrite Hn. simpl.
  rewrite Hp, bool_decide_eq_false_2 by (by intros ?). simpl.
  rewrite Hn. simpl.
  by rewrite Hx, bool_decide_eq_false_2 by (by intros ?).
Qed.

(** [unlink] on a node of a cycle other than its first node takes the
    node out of the cycle; the node itself is left as it was. *)
Lemma unlink_spec h l1 n l2 q z :
  l1 ≠ [] → NoDup (l1 ++ n :: l2) →
  dlseg h q z (l1 ++ n :: l2) q z →
  ∃ h' z', ListHead.unlink n h = Some h' ∧
           dlseg h' q z' (l1 ++ l2) q z' ∧
           same_data h h' ∧ h' !! n = h !! n.
Proof.
  intros Hl1 Hnd Hs.
  apply dlseg_app in Hs as (m & m' & H1 & H2).
  destruct H2 as [<- (nd & Hn & Hp & H2)].
  destruct (snoc_cases l1 Hl1) as (t1 & m1 & ->).
  pose proof (dlseg_snoc _ _ _ _ _ _ _ H1) as [-> (ndm & Hm & _)].
  apply NoDup_app in Hnd as (Hnd1 & Hdisj & Hnd2).
  apply NoDup_cons in Hnd2 as [Hnl2 Hnd2].
  assert (m1 ∉ t1) as Hm1t.
  { apply NoDup_app in Hnd1 as (_ & Hd & _).
    intros Hin. apply (Hd _ Hin). by left. }
  assert (m1 ∈ t1 ++ [m1]) as Hm1in.
  { rewrite elem_of_app, list_elem_of_singleton. by right. }
  assert (m1 ≠ n) as Hmn.
  { intros ->. apply (Hdisj _ Hm1in). by left. }
  assert (∃ t0, t1 ++ [m1] = q :: t0) as (t0 & Hq0).
  { destruct (t1 ++ [m1]) as [|a t0] eqn:E; [by destruct t1|].
    destruct H1 as [-> _]. eauto. }
  assert (q ≠ n) as Hqn.
  { intros ->. apply (Hdisj n); [|by left]. rewrite Hq0. by left. }
  (* self.prev.next = self.next *)
  set (h1 := <[m1 := upd_next (ListHead.next nd) ndm]> h).
  assert (dlseg h1 q z (t1 ++ [m1]) (ListHead.next nd) m1) as H1'.
  { by apply dlseg_set_next_last with (j := n). }
  assert (h1 !! n = Some nd) as Hn1.
  { unfold h1. by rewrite lookup_insert_ne. }
  assert (ListHead.unlink n h =
          if bool_decide (ListHead.next nd ≠ n)
          then ListHead.set_prev (ListHead.next nd) m1 h1
          else Some h1) as Hrun.
  { unfold ListHead.unlink. rewrite Hn. simpl.
    rewrite Hp, bool_decide_eq_true_2 by done. simpl.
    rewrite (set_next_Some _ _ _ _ Hm). simpl. fold h1.
    rewrite Hn1. simpl. by rewrite Hp. }
  rewrite Hrun. clear Hrun.
  destruct l2 as [|p l2]; simpl in H2.
  - (* the node is the last one: its successor is the first node *)
    destruct H2 as [Hnx <-]. rewrite Hnx in *.
    rewrite bool_decide_eq_true_2 by done.
    assert (∃ ndq, h1 !! q = Some ndq) as (ndq & Hq1).
    { rewrite Hq0 in H1'. destruct H1' as [_ (ndq & ? & _)]. eauto. }
    rewrite (set_prev_Some _ _ _ _ Hq1).
    eexists _, m1. split_and!; [done|..].
    + rewrite app_nil_r, Hq0.
      apply dlseg_set_prev_head with (i' := n); [|done|by rewrite <-Hq0].
      apply NoDup_cons. by rewrite <-Hq0.
    + eapply same_data_trans; eapply same_data_insert; done.
    + rewrite lookup_insert_ne by done. unfold h1.
      by rewrite lookup_insert_ne.
  - (* the node has a successor [p] inside the list *)
    destruct H2 as [-> (ndp & Hp0 & Hpp & H2)].
    assert (ListHead.next nd ≠ n) as Hpn.
    { intros E. apply Hnl2. rewrite E. by left. }
    assert (ListHead.next nd ≠ m1) as Hpm.
    { intros E. apply (Hdisj _ Hm1in). rewrite <-E. right. by left. }
    rewrite bool_decide_eq_true_2 by done.
    assert (h1 !! ListHead.next nd = Some ndp) as Hp1.
    { unfold h1. by rewrite lookup_insert_ne. }
    rewrite (set_prev_Some _ _ _ _ Hp1).
    eexists _, z. split_and!; [done|..].
    + apply dlseg_app. exists (ListHead.next nd), m1. split.
      * eapply dlseg_frame; [|exact H1']. intros a Ha.
        apply lookup_insert_ne. intros <-.
        apply (Hdisj _ Ha). right. by left.
      * apply dlseg_set_prev_head with (i' := n); [|done|].
        { by apply NoDup_cons in Hnd2 as [? ?]. }
        split; [done|]. exists ndp. split_and!; [done..|].
        eapply dlseg_frame; [|exact H2]. intros a Ha.
        unfold h1. apply lookup_insert_ne. intros <-.
        apply (Hdisj _ Hm1in). right. by right.
    + eapply same_data_trans; eapply same_data_insert; done.
    + rewrite lookup_insert_ne by done. unfold h1.
      by rewrite lookup_insert_ne.
Qed.
End Shape.

(** * What the methods do to the recency list *)

Section Methods.
Context {K V : Type} `{Countable K}.
Implicit Types (self s : LRUCache.t K V) (l : list loc).
Implicit Types (h : gmap loc (ListHead.t K V)).

Ltac run :=
  unfold mbind, M_bind, bind, LRUCache.gets,
    ret, raise, LRUCache.set_queue, LRUCache.set_size,
    LRUCache.set_cache, LRUCache.set_nodes, LRUCache.call, LRUCache.attr;
  simpl.

(** [_update_node] on a node that is not in the list and is linked to
    itself (a node just built by [ListHead(key, value)]). *)
Lemma update_node_new s l x ndx :
  rep s l → x ∉ l → LRUCache.nodes s !! x = Some ndx →
  ListHead.prev ndx = x → ListHead.next ndx = x →
  ∃ h', LRUCache._update_node x s =
          (Ret (), LRUCache.mk h' (LRUCache.cache s) (Some x)
                     (LRUCache.size s) (LRUCache.maxsize s)) ∧
        cyc h' (x :: l) ∧ same_data (LRUCache.nodes s) h'.
Proof.
  intros [Hq [Hnd Hc]] Hx Hhx Hp Hn. unfold LRUCache._update_node. run.
  rewrite Hq. destruct l as [|q t]; simpl.
  - exists (LRUCache.nodes s). split_and!; [done| |apply same_data_refl].
    split; [apply NoDup_singleton|]. exists x. split; [done|].
    by exists ndx.
  - destruct Hc as [z Hs].
    rewrite bool_decide_eq_true_2 by (intros ->; apply Hx; by left).
    rewrite (unlink_self _ _ _ Hhx Hp Hn).
    destruct (prepend_spec _ _ _ _ _ _ Hnd Hx Hhx Hs)
      as (h' & Hrun & Hs' & Hsame).
    simpl. rewrite Hrun. exists h'. split_and!; [done| |done].
    split; [by apply NoDup_cons|]. by exists z.
Qed.

(** [_update_node] on a node of the list moves it to the front. *)
Lemma update_node_old s l1 n l2 :
  rep s (l1 ++ n :: l2) →
  ∃ h', LRUCache._update_node n s =
          (Ret (), LRUCache.mk h' (LRUCache.cache s) (Some n)
                     (LRUCache.size s) (LRUCache.maxsize s)) ∧
        cyc h' (n :: l1 ++ l2) ∧ same_data (LRUCache.nodes s) h'.
Proof.
  intros [Hq [Hnd Hc]]. unfold LRUCache._update_node. run.
  rewrite Hq. destruct l1 as [|q t1]; simpl.
  - rewrite bool_decide_eq_false_2 by (by intros ?).
    exists (LRUCache.nodes s). split_and!; [by destruct s|done|].
    apply same_data_refl.
  - destruct Hc as [z Hs].
    change (dlseg (LRUCache.nodes s) q z ((q :: t1) ++ n :: l2) q z) in Hs.
    change (NoDup (q :: t1 ++ n :: l2)) in Hnd.
    assert (n ≠ q) as Hnq.
    { intros ->. apply NoDup_cons in Hnd as [Hq' _]. apply Hq'.
      rewrite elem_of_app. right. by left. }
    rewrite bool_decide_eq_true_2 by done.
    destruct (unlink_spec (LRUCache.nodes s) (q :: t1) n l2 q z) as
      (h1 & z' & Hrun1 & Hs1 & Hsame1 & Hn1); [done..|].
    rewrite Hrun1. simpl.
    assert (is_Some (LRUCache.nodes s !! n)) as [ndn Hn].
    { eapply dlseg_elem; [exact Hs|]. right. rewrite elem_of_app.
      right. by left. }
    assert (NoDup (n :: q :: t1 ++ l2)) as Hnd'.
    { change (NoDup ((q :: t1) ++ n :: l2)) in Hnd.
      apply NoDup_app in Hnd as (Hd1 & Hdisj & Hd2).
      apply NoDup_cons in Hd2 as [Hn2 Hd2].
      apply NoDup_cons. split.
      - change (n ∉ (q :: t1) ++ l2). rewrite elem_of_app.
        intros [Hin|Hin]; [|done]. apply (Hdisj _ Hin). by left.
      - change (NoDup ((q :: t1) ++ l2)). apply NoDup_app.
        split_and!; [done| |done].
        intros a Ha Ha'. apply (Hdisj _ Ha). by right. }
    apply NoDup_cons in Hnd' as [Hn' Hnd'].
    destruct (prepend_spec h1 q (t1 ++ l2) z' n ndn)
      as (h2 & Hrun2 & Hs2 & Hsame2); [done|done|by rewrite Hn1|done|].
    rewrite Hrun2. exists h2. split_and!; [done| |].
    + split; [by apply NoDup_cons|]. by exists z'.
    + by eapply same_data_trans.
Qed.

Lemma cyc_frame h h' l :
  (∀ a, a ∈ l → h' !! a = h !! a) → cyc h l → cyc h' l.
Proof.
  intros Hf [Hnd Hc]. split; [done|]. destruct l as [|q t]; [done|].
  destruct Hc as [z Hs]. exists z. by eapply dlseg_frame.
Qed.

Lemma cyc_elem h l a : cyc h l → a ∈ l → is_Some (h !! a).
Proof.
  intros [_ Hc] Ha. destruct l as [|q t]; [by apply elem_of_nil in Ha|].
  destruct Hc as [z Hs]. by eapply dlseg_elem.
Qed.

(** [_delete_oldest] on a list whose last node is [z]: the key of [z]
    is deleted from the dict, which raises [KeyError] when it is not
    there, and [z] is unlinked. *)
Lemma delete_oldest_spec s t z ndz :
  rep s (t ++ [z]) → LRUCache.nodes s !! z = Some ndz →
  match LRUCache.cache s !! ListHead.key ndz with
  | None => LRUCache._delete_oldest s = (Raise KeyError, s)
  | Some _ =>
      ∃ h', LRUCache._delete_oldest s =
              (Ret (), LRUCache.mk h'
                         (delete (ListHead.key ndz) (LRUCache.cache s))
                         (LRUCache.queue s) (LRUCache.size s - 1)
                         (LRUCache.maxsize s)) ∧
            cyc h' (match t with [] => [z] | _ => t end) ∧
            same_data (LRUCache.nodes s) h'
  end.
Proof.
  intros [Hq [Hnd Hc]] Hz.
  destruct (t ++ [z]) as [|q t0] eqn:E; [by destruct t|].
  simpl in Hq. destruct Hc as [z' Hs].
  assert (z' = z) as ->.
  { rewrite <-E in Hs. by destruct (dlseg_snoc _ _ _ _ _ _ _ Hs). }
  assert (∃ nd, LRUCache.nodes s !! q = Some nd ∧ ListHead.prev nd = z)
    as (ndq & Hnq & Hpq).
  { destruct Hs as [_ (nd & ? & ? & _)]. eauto. }
  unfold LRUCache._delete_oldest, LRUCache.del_cache. run.
  rewrite Hq, Hnq. simpl. rewrite Hpq, Hz. simpl.
  destruct (LRUCache.cache s !! ListHead.key ndz) as [n|] eqn:Hk;
    simpl; [|done].
  destruct t as [|a t].
  - simpl in E. injection E as -> <-.
    destruct Hs as [_ (nd & Hnd' & Hp & Hx & _)].
    rewrite Hz in Hnd'. injection Hnd' as <-.
    rewrite (unlink_self _ _ _ Hz Hp Hx). simpl.
    eexists. split_and!; [by rewrite Hq| |apply same_data_refl].
    split; [done|]. exists q. split; [done|]. by exists ndz.
  - destruct (unlink_spec (LRUCache.nodes s) (a :: t) z [] q z)
      as (h' & z' & Hrun & Hs' & Hsame & _); [done|by rewrite E..|].
    rewrite Hrun. simpl. exists h'. split_and!; [by rewrite Hq| |done].
    rewrite app_nil_r in Hs'. split.
    + rewrite <-E in Hnd. by apply NoDup_app in Hnd as (? & _).
    + simpl in E. injection E as -> _. by exists z'.
Qed.

(** [__setitem__]: a new node is always created, put in the dict under
    [key] and at the front of the list, and [size] is incremented;
    then, if [size] exceeds [maxsize], [_delete_oldest] runs. *)
Lemma setitem_spec s l k v :
  rep s l →
  let x := fresh (dom (LRUCache.nodes s)) in
  let c' := <[k := x]> (LRUCache.cache s) in
  (x ∉ l) ∧
  ∃ h1,
    same_data (<[x := ListHead.mk x x k v]> (LRUCache.nodes s)) h1 ∧
    cyc h1 (x :: l) ∧
    if bool_decide (LRUCache.size s + 1 > LRUCache.maxsize s)%Z then
      ∃ t z ndz, x :: l = t ++ [z] ∧ h1 !! z = Some ndz ∧
        match c' !! ListHead.key ndz with
        | None =>
            LRUCache.__setitem__ k v s =
              (Raise KeyError,
               LRUCache.mk h1 c' (Some x) (LRUCache.size s + 1)
                 (LRUCache.maxsize s))
        | Some _ =>
            ∃ h2, LRUCache.__setitem__ k v s =
                    (Ret (),
                     LRUCache.mk h2 (delete (ListHead.key ndz) c')
                       (Some x) (LRUCache.size s)
                       (LRUCache.maxsize s)) ∧
                  cyc h2 (match t with [] => [z] | _ => t end) ∧
                  same_data h1 h2
        end
    else
      LRUCache.__setitem__ k v s =
        (Ret (), LRUCache.mk h1 c' (Some x) (LRUCache.size s + 1)
                   (LRUCache.maxsize s)).
Proof.
  intros [Hq Hc] x c'.
  assert (x ∉ l) as Hx.
  { intros Hin. apply (cyc_elem _ _ _ Hc), elem_of_dom in Hin.
    by apply is_fresh in Hin. }
  split; [done|].
  set (h0 := <[x := ListHead.mk x x k v]> (LRUCache.nodes s)).
  destruct (update_node_new
              (LRUCache.mk h0 c' (LRUCache.queue s) (LRUCache.size s)
                 (LRUCache.maxsize s)) l x (ListHead.mk x x k v))
    as (h1 & Hrun & Hc1 & Hsame); [|done|apply lookup_insert_eq|done..|].
  { split; [done|]. simpl. eapply cyc_frame; [|done].
    intros a Ha. apply lookup_insert_ne. by intros ->. }
  simpl in Hrun, Hsame. exists h1. split_and!; [done..|].
  unfold LRUCache.__setitem__, LRUCache.new_node, ListHead.__init__.
  run. fold x h0 c'. rewrite Hrun. simpl.
  case_bool_decide as Hsz; [|done].
  destruct (snoc_cases (x :: l)) as (t & z & E); [done|].
  assert (is_Some (h1 !! z)) as [ndz Hz].
  { apply (cyc_elem _ (x :: l)); [done|]. rewrite E, elem_of_app.
    right. by left. }
  exists t, z, ndz. split_and!; [done..|].
  pose proof (delete_oldest_spec
                (LRUCache.mk h1 c' (Some x) (LRUCache.size s + 1)
                   (LRUCache.maxsize s)) t z ndz) as Hdel.
  simpl in Hdel. rewrite <-E in Hdel.
  specialize (Hdel (conj eq_refl Hc1) Hz).
  destruct (c' !! ListHead.key ndz) as [n|]; [|done].
  destruct Hdel as (h2 & Hrun2 & Hc2 & Hsame2).
  exists h2. split_and!; [|done..].
  rewrite Hrun2. do 2 f_equal. lia.
Qed.

Lemma getitem_miss s k :
  LRUCache.cache s !! k = None →
  LRUCache.__getitem__ k s = (Raise KeyError, s).
Proof. intros Hk. unfold LRUCache.__getitem__. run. by rewrite Hk. Qed.

(** [__getitem__] on a key of the dict moves its node to the front of
    the list and returns the value of the node. *)
Lemma getitem_hit s l1 n l2 k nd :
  rep s (l1 ++ n :: l2) → LRUCache.cache s !! k = Some n →
  LRUCache.nodes s !! n = Some nd →
  ∃ h', LRUCache.__getitem__ k s =
          (Ret (ListHead.value nd),
           LRUCache.mk h' (LRUCache.cache s) (Some n) (LRUCache.size s)
             (LRUCache.maxsize s)) ∧
        cyc h' (n :: l1 ++ l2) ∧ same_data (LRUCache.nodes s) h'.
Proof.
  intros Hrep Hk Hn.
  destruct (update_node_old _ _ _ _ Hrep) as (h' & Hrun & Hc & Hsame).
  destruct (same_data_lookup _ _ _ _ Hsame Hn) as (nd' & Hn' & Hkv).
  exists h'. split_and!; [|done..].
  unfold LRUCache.__getitem__. run. rewrite Hk. simpl. rewrite Hrun.
  simpl. rewrite Hn'. by injection Hkv as _ ->.
Qed.

Lemma entries_unfold h a l :
  entries h (a :: l) =
    match kv <$> h !! a with
    | Some p => p :: entries h l
    | None => entries h l
    end.
Proof. done. Qed.

Lemma entries_cons h a l nd :
  h !! a = Some nd → entries h (a :: l) = kv nd :: entries h l.
Proof. intros Ha. by rewrite entries_unfold, Ha. Qed.

Lemma entries_same h h' l : same_data h h' → entries h' l = entries h l.
Proof.
  intros Hs. induction l as [|a l IH]; [done|].
  by rewrite !entries_unfold, Hs, IH.
Qed.

Lemma entries_app h l1 l2 :
  entries h (l1 ++ l2) = entries h l1 ++ entries h l2.
Proof. unfold entries. apply omap_app. Qed.

Lemma entries_length h i i' l j j' :
  dlseg h i i' l j j' → length (entries h l) = length l.
Proof.
  revert i i'. induction l as [|a l IH]; intros i i'; [done|].
  intros [-> (nd & Hnd & _ & Hs)]. rewrite (entries_cons _ _ _ _ Hnd).
  simpl. f_equal. eauto.
Qed.

Lemma items_loop_spec s q t i i' j' fuel acc :
  dlseg (LRUCache.nodes s) i i' t q j' → q ∉ t → length t ≤ fuel →
  LRUCache.items_loop fuel q i acc s =
    (Ret (Some (acc ++ entries (LRUCache.nodes s) t)), s).
Proof.
  revert i i' fuel acc. induction t as [|a t IH]; intros i i' fuel acc.
  - intros [-> _] _ _. destruct fuel; simpl;
      rewrite bool_decide_eq_false_2 by (by intros ?);
      by rewrite app_nil_r.
  - intros [-> (nd & Hnd & _ & Hs)] Hq Hlen.
    apply not_elem_of_cons in Hq as [Hqa Hq].
    destruct fuel as [|fuel]; simpl in Hlen; [lia|]. simpl.
    rewrite bool_decide_eq_true_2 by done. run.
    repeat (rewrite Hnd; simpl).
    rewrite (IH _ _ _ _ Hs Hq) by lia.
    by rewrite <-app_assoc.
Qed.

(** [items()] returns the keys and values of the list, front first. *)
Lemma items_spec s l fuel :
  rep s l → length l ≤ S fuel →
  LRUCache.items fuel s = (Ret (Some (entries (LRUCache.nodes s) l)), s).
Proof.
  intros [Hq [Hnd Hc]] Hlen. unfold LRUCache.items. run. rewrite Hq.
  destruct l as [|q t]; [done|]. simpl.
  destruct Hc as [z [_ (nd & Hn & _ & Hs)]]. repeat (rewrite Hn; simpl).
  apply NoDup_cons in Hnd as [Hqt _].
  by rewrite (items_loop_spec _ _ _ _ _ _ _ _ Hs Hqt)
    by (simpl in Hlen; lia).
Qed.

Lemma islice_S {A}
    (gen : LRUCache.frame → M (LRUCache.t K V) (option A * LRUCache.frame))
    n fr s :
  islice gen (S n) fr s =
    match gen fr s with
    | (Ret (Some a, fr'), s') =>
        let '(r, fr'') := islice gen n fr' s' in (a :: r, fr'')
    | (Ret (None, fr'), _) => ([], fr')
    | (Raise _, _) => ([], fr)
    end.
Proof. done. Qed.

Lemma resume_suspended {A} (f : ListHead.t K V → A) s p ndp nd :
  LRUCache.nodes s !! p = Some ndp →
  LRUCache.nodes s !! ListHead.next ndp = Some nd →
  LRUCache.resume f (LRUCache.Suspended p) s =
    (Ret (Some (f nd), LRUCache.Suspended (ListHead.next ndp)), s).
Proof.
  intros Hp Hn. unfold LRUCache.resume. run. rewrite Hp. simpl.
  by rewrite Hn.
Qed.

Lemma islice_seg {A} (f : ListHead.t K V → A) s t i p j j' ndp :
  dlseg (LRUCache.nodes s) i p t j j' →
  LRUCache.nodes s !! p = Some ndp → ListHead.next ndp = i →
  islice (LRUCache.resume f) (length t) (LRUCache.Suspended p) s =
    (omap (λ a, f <$> LRUCache.nodes s !! a) t, LRUCache.Suspended j').
Proof.
  revert i p ndp. induction t as [|a t IH]; intros i p ndp.
  - by intros [_ ->] _ _.
  - intros [-> (nd & Hnd & _ & Hs)] Hp Hn.
    change (length (i :: t)) with (S (length t)). rewrite islice_S.
    rewrite <-Hn in Hnd. rewrite (resume_suspended _ _ _ _ _ Hp Hnd).
    rewrite Hn in *. rewrite (IH _ _ _ Hs Hnd eq_refl). simpl.
    by rewrite Hnd.
Qed.

Lemma islice_app {A} (f : ListHead.t K V → A) n m fr s r1 fr1 :
  islice (LRUCache.resume f) n fr s = (r1, fr1) → length r1 = n →
  islice (LRUCache.resume f) (n + m) fr s =
    (r1 ++ (islice (LRUCache.resume f) m fr1 s).1,
     (islice (LRUCache.resume f) m fr1 s).2).
Proof.
  revert fr r1. induction n as [|n IH]; intros fr r1.
  - simpl. intros [= <- <-] _. by destruct (islice _ m fr s).
  - change (S n + m) with (S (n + m)). rewrite !islice_S.
    destruct (LRUCache.resume f fr s) as [[[[a|] fr']|e] s'] eqn:E;
      [|by intros [= <- <-]..].
    assert (s' = s) as ->.
    { unfold LRUCache.resume in E. destruct fr; revert E; run;
        repeat (case_match; simpl); congruence. }
    destruct (islice _ n fr' s) as [r fr''] eqn:E'.
    intros [= <- <-] [= Hlen]. by rewrite (IH _ _ E' Hlen).
Qed.

Lemma dlseg_next h i i' l j j' a :
  dlseg h i i' l j j' → a ∈ l →
  ∃ nd, h !! a = Some nd ∧
        (ListHead.next nd ∈ l ∨ ListHead.next nd = j).
Proof.
  revert i i'. induction l as [|b t IH]; intros i i' Hs Ha.
  - by apply elem_of_nil in Ha.
  - destruct Hs as [-> (nd & Hnd & _ & Hs)].
    apply elem_of_cons in Ha as [->|Ha].
    + exists nd. split; [done|]. destruct t as [|c t].
      * right. by destruct Hs.
      * left. destruct Hs as [-> _]. right. by left.
    + destruct (IH _ _ Hs Ha) as (nd' & Hnd' & [Hin|Hj]);
        exists nd'; split; auto. left. by right.
Qed.

(** Along a cycle [next] never leaves the cycle: a generator suspended
    on a node of the cycle yields again, however often it is resumed. *)
Lemma islice_running {A} (f : ListHead.t K V → A) s l p n :
  cyc (LRUCache.nodes s) l → p ∈ l →
  ∃ r p', islice (LRUCache.resume f) n (LRUCache.Suspended p) s =
            (r, LRUCache.Suspended p') ∧ length r = n ∧ p' ∈ l.
Proof.
  intros Hc. revert p. induction n as [|n IH]; intros p Hp.
  - by exists [], p.
  - destruct l as [|q t]; [by apply elem_of_nil in Hp|].
    destruct Hc as [Hnd [z Hs]].
    destruct (dlseg_next _ _ _ _ _ _ _ Hs Hp) as (ndp & Hndp & Hin).
    assert (ListHead.next ndp ∈ q :: t) as Hin'.
    { destruct Hin as [?| ->]; [done|by left]. }
    destruct (dlseg_elem _ _ _ _ _ _ _ Hs Hin') as [nd Hn].
    destruct (IH _ Hin') as (r & p' & Hrun & Hlen & Hp').
    exists (f nd :: r), p'.
    rewrite islice_S, (resume_suspended _ _ _ _ _ Hndp Hn), Hrun. simpl.
    by rewrite Hlen.
Qed.

(** ** Reachable states and their invariant *)

Lemma resume_state {A} (f : ListHead.t K V → A) fr s :
  (LRUCache.resume f fr s).2 = s.
Proof.
  unfold LRUCache.resume. destruct fr; run;
    repeat (case_match; simpl); congruence.
Qed.

Lemma items_loop_state fuel q node acc s :
  (LRUCache.items_loop fuel q node acc s).2 = s.
Proof.
  revert node acc. induction fuel as [|fuel IH]; intros node acc; simpl;
    case_bool_decide; try done.
  run. destruct (LRUCache.nodes s !! node) eqn:E; simpl; [|done].
  repeat (rewrite E; simpl). apply IH.
Qed.

Lemma items_state fuel s : (LRUCache.items fuel s).2 = s.
Proof.
  unfold LRUCache.items. run. destruct (LRUCache.queue s); [|done].
  destruct (LRUCache.nodes s !! _) eqn:E; simpl; [|done].
  repeat (rewrite E; simpl). apply items_loop_state.
Qed.

Lemma setitem_inv s k v : inv s → inv (LRUCache.__setitem__ k v s).2.
Proof.
  intros (l & Hrep & Hd).
  destruct (setitem_spec s l k v Hrep) as (Hx & h1 & Hsame & Hc1 & Hcase).
  set (x := fresh (dom (LRUCache.nodes s))) in *.
  set (c' := <[k := x]> (LRUCache.cache s)) in *.
  assert (∀ k' n, c' !! k' = Some n →
            n ∈ x :: l ∧ ∃ nd, h1 !! n = Some nd ∧ ListHead.key nd = k')
    as Hd1.
  { intros k' n. unfold c'.
    destruct (decide (k = k')) as [<-|Hk];
      [rewrite lookup_insert_eq|rewrite lookup_insert_ne by done].
    - intros [= <-]. split; [by left|].
      destruct (same_data_lookup _ h1 x (ListHead.mk x x k v) Hsame)
        as (nd & Hnd & Hkv); [apply lookup_insert_eq|].
      exists nd. split; [done|]. by injection Hkv.
    - intros Hn. destruct (Hd _ _ Hn) as (Hin & nd & Hnd & Hkey).
      split; [by right|].
      destruct (same_data_lookup _ h1 n nd Hsame) as (nd' & Hnd' & Hkv).
      { rewrite lookup_insert_ne; [done|]. by intros ->. }
      exists nd'. split; [done|]. injection Hkv as Hkv _. congruence. }
  assert (inv (LRUCache.mk h1 c' (Some x) (LRUCache.size s + 1)
                 (LRUCache.maxsize s))) as Hinv1.
  { exists (x :: l). by split. }
  case_bool_decide as Hsz; [|by rewrite Hcase].
  destruct Hcase as (t & z & ndz & E & Hz & Hcase).
  destruct (c' !! ListHead.key ndz) as [nz|] eqn:Hkz; [|by rewrite Hcase].
  destruct Hcase as (h2 & -> & Hc2 & Hsame2). simpl.
  exists (match t with [] => [z] | _ => t end). split.
  - split; [|done]. simpl. destruct t; simpl in E; by injection E as ->.
  - intros k' n. simpl.
    destruct (decide (ListHead.key ndz = k')) as [<-|Hk];
      [by rewrite lookup_delete_eq|rewrite lookup_delete_ne by done].
    intros Hn.
    destruct (Hd1 _ _ Hn) as (Hin & nd & Hnd & Hkey).
    destruct (same_data_lookup _ _ _ _ Hsame2 Hnd) as (nd' & Hnd' & Hkv).
    split; [|exists nd'; split; [done|];
             injection Hkv as Hkv _; congruence].
    rewrite E, elem_of_app, list_elem_of_singleton in Hin.
    destruct Hin as [Hin| ->];
      [destruct t; [by apply elem_of_nil in Hin|done]|].
    congruence.
Qed.

Lemma getitem_inv s k : inv s → inv (LRUCache.__getitem__ k s).2.
Proof.
  intros (l & Hrep & Hd).
  destruct (LRUCache.cache s !! k) as [n|] eqn:Hk;
    [|rewrite getitem_miss by done; by exists l].
  destruct (Hd _ _ Hk) as (Hin & nd & Hnd & Hkey).
  apply list_elem_of_split in Hin as (l1 & l2 & ->).
  destruct (getitem_hit _ _ _ _ _ _ Hrep Hk Hnd)
    as (h' & -> & Hc & Hsame). simpl.
  exists (n :: l1 ++ l2). split; [by split|]. simpl.
  intros k' n' Hn'. destruct (Hd _ _ Hn') as (Hin' & nd' & Hnd' & Hkey').
  destruct (same_data_lookup _ _ _ _ Hsame Hnd') as (nd'' & Hnd'' & Hkv).
  split; [|exists nd''; split; [done|];
           injection Hkv as Hkv _; congruence].
  rewrite elem_of_app, elem_of_cons in Hin'.
  rewrite elem_of_cons, elem_of_app. tauto.
Qed.

Lemma reachable_inv c s : reachable c s → inv s.
Proof.
  induction 1 as [|s k v _ IH|s k _ IH|s k _ IH|s _ IH|s fuel _ IH
                  |s fr _ IH|s fr _ IH].
  - exists []. split; [|intros k n Hn; simpl in Hn;
                        by rewrite lookup_empty in Hn].
    split; [done|]. split; [apply NoDup_nil_2|done].
  - by apply setitem_inv.
  - by apply getitem_inv.
  - done.
  - done.
  - by rewrite items_state.
  - unfold LRUCache.__iter__. by rewrite resume_state.
  - unfold LRUCache.iteritems. by rewrite resume_state.
Qed.

(** ** Caches filled with distinct keys *)

Lemma entries_frame h h' l :
  (∀ a, a ∈ l → h' !! a = h !! a) → entries h' l = entries h l.
Proof.
  intros Hf. induction l as [|a l IH]; [done|].
  rewrite !entries_unfold, Hf by left. rewrite IH; [done|].
  intros b Hb. apply Hf. by right.
Qed.

Lemma entries_length_cyc h l : cyc h l → length (entries h l) = length l.
Proof.
  intros [_ Hc]. destruct l as [|q t]; [done|]. destruct Hc as [z Hs].
  by eapply entries_length.
Qed.

Lemma take_app_take {A} (a b : list A) n :
  take n (a ++ take n b) = take n (a ++ b).
Proof. rewrite !take_app, take_take. do 2 f_equal. lia. Qed.

Lemma good_length s kvs l :
  rep s l → entries (LRUCache.nodes s) l = kvs → length kvs = length l.
Proof. intros [_ Hc] <-. by apply entries_length_cyc. Qed.

(** [__setitem__] with a key that is not in the cache, on a cache that
    holds at most [maxsize] entries: the entry is put in front and, when
    the cache was full, the last entry is dropped. *)
Lemma good_setitem s kvs k v :
  good s kvs → k ∉ kvs.*1 → (1 ≤ LRUCache.maxsize s)%Z →
  (Z.of_nat (length kvs) ≤ LRUCache.maxsize s)%Z →
  ∃ s', LRUCache.__setitem__ k v s = (Ret (), s') ∧
        good s' (take (Z.to_nat (LRUCache.maxsize s)) ((k, v) :: kvs)) ∧
        LRUCache.maxsize s' = LRUCache.maxsize s.
Proof.
  intros (l & Hrep & He & Hnd & Hc & Hsz) Hk Hpos Hlen.
  pose proof (good_length _ _ _ Hrep He) as Hll.
  destruct (setitem_spec s l k v Hrep) as (Hx & h1 & Hsame & Hc1 & Hcase).
  set (x := fresh (dom (LRUCache.nodes s))) in *.
  set (c' := <[k := x]> (LRUCache.cache s)) in *.
  assert (∀ l', x ∉ l' →
            entries h1 l' = entries (LRUCache.nodes s) l') as Hent.
  { intros l' Hl'. rewrite (entries_same _ _ _ Hsame).
    apply entries_frame. intros a Ha. apply lookup_insert_ne.
    by intros ->. }
  assert (∀ l', x ∉ l' →
            entries h1 (x :: l') = (k, v) :: entries (LRUCache.nodes s) l')
    as Hentx.
  { intros l' Hl'. rewrite (entries_same _ _ _ Hsame).
    rewrite (entries_cons _ _ _ (ListHead.mk x x k v))
      by apply lookup_insert_eq.
    f_equal. apply entries_frame. intros a Ha. apply lookup_insert_ne.
    by intros ->. }
  case_bool_decide as Hb.
  - destruct Hcase as (t & z & ndz & E & Hz & Hm).
    destruct (snoc_cases l) as (t' & z' & ->).
    { intros ->. simpl in *. lia. }
    change ((x :: t') ++ [z'] = t ++ [z]) in E.
    apply app_inj_tail in E as [<- <-].
    apply not_elem_of_app in Hx as [Hxt Hxz].
    set (kvs0 := entries (LRUCache.nodes s) t').
    assert (kvs = kvs0 ++ [kv ndz]) as ->.
    { rewrite <-He, entries_app. f_equal.
      by rewrite <-(Hent [z']), (entries_cons _ _ _ _ Hz). }
    assert (length kvs0 = length t') as Hl0.
    { rewrite !length_app in Hll. simpl in Hll. lia. }
    rewrite fmap_app in Hnd, Hk, Hc. simpl in Hnd, Hk.
    change ([kv ndz].*1) with [ListHead.key ndz] in Hc.
    apply NoDup_app in Hnd as (Hnd0 & Hdisj & _).
    apply not_elem_of_app in Hk as [Hk0 Hkz].
    rewrite list_elem_of_singleton in Hkz.
    assert (ListHead.key ndz ∉ kvs0.*1) as Hz0.
    { intros Hin. apply (Hdisj _ Hin). by left. }
    set (m0 := list_to_map (zip kvs0.*1 t') : gmap K loc).
    assert (m0 !! ListHead.key ndz = None) as Hm0.
    { apply not_elem_of_list_to_map_1. rewrite fst_zip; [done|].
      rewrite length_fmap. lia. }
    assert (LRUCache.cache s = <[ListHead.key ndz := z']> m0) as Hc0.
    { rewrite Hc.
      rewrite (zip_with_app pair kvs0.*1 [ListHead.key ndz] t' [z'])
        by (rewrite length_fmap; lia).
      apply list_to_map_snoc. rewrite fst_zip; [done|].
      rewrite length_fmap. lia. }
    assert (c' !! ListHead.key ndz = Some z') as Hcz.
    { unfold c'. rewrite lookup_insert_ne by done.
      rewrite Hc0. apply lookup_insert_eq. }
    rewrite Hcz in Hm. destruct Hm as (h2 & Hrun & Hc2 & Hsame2).
    eexists. split; [done|]. split; [|done].
    assert (Z.to_nat (LRUCache.maxsize s) = length ((k, v) :: kvs0))
      as ->.
    { rewrite !length_app in Hlen, Hsz. simpl in *. lia. }
    change ((k, v) :: kvs0 ++ [kv ndz])
      with (((k, v) :: kvs0) ++ [kv ndz]).
    rewrite take_app_length. exists (x :: t'). split_and!.
    + by split.
    + change (entries h2 (x :: t') = (k, v) :: kvs0).
      by rewrite (entries_same _ _ _ Hsame2), Hentx.
    + simpl. apply NoDup_cons. by split.
    + simpl. unfold c'. rewrite delete_insert_ne by done.
      by rewrite Hc0, delete_insert_id.
    + simpl. rewrite length_app in Hsz. simpl in Hsz. lia.
  - rewrite Hcase. eexists. split; [done|]. split; [|done].
    rewrite take_ge by (simpl; lia). exists (x :: l). split_and!.
    + by split.
    + change (entries h1 (x :: l) = (k, v) :: kvs).
      by rewrite Hentx, He.
    + simpl. apply NoDup_cons. by split.
    + simpl. unfold c'. by rewrite Hc.
    + simpl. rewrite Hsz. lia.
Qed.

Lemma good_init c : good (LRUCache.mk ∅ ∅ None 0 c : LRUCache.t K V) [].
Proof.
  exists []. split_and!; try done; [|apply NoDup_nil_2].
  split; [done|]. split; [apply NoDup_nil_2|done].
Qed.

Lemma puts_good new s kvs0 :
  good s kvs0 → NoDup (new.*1 ++ kvs0.*1) → (1 ≤ LRUCache.maxsize s)%Z →
  (Z.of_nat (length kvs0) ≤ LRUCache.maxsize s)%Z →
  ∃ s', puts new s = (Ret (), s') ∧
        good s' (take (Z.to_nat (LRUCache.maxsize s)) (reverse new ++ kvs0)) ∧
        LRUCache.maxsize s' = LRUCache.maxsize s.
Proof.
  revert s kvs0. induction new as [|[k v] rest IH];
    intros s kvs0 Hg Hnd Hpos Hlen.
  - exists s. split; [done|]. by rewrite take_ge by (simpl; lia).
  - change (NoDup (k :: (rest.*1 ++ kvs0.*1))) in Hnd.
    apply NoDup_cons in Hnd as [Hk Hnd].
    apply not_elem_of_app in Hk as [Hkr Hk0].
    destruct (good_setitem s kvs0 k v) as (s1 & Hrun & Hg1 & Hm1);
      [done..|].
    apply NoDup_app in Hnd as (Hndr & Hdisj & Hnd0).
    destruct (IH s1 (take (Z.to_nat (LRUCache.maxsize s)) ((k, v) :: kvs0)))
      as (s' & Hrun' & Hg' & Hm').
    + done.
    + rewrite fmap_take. apply NoDup_app. split_and!; [done| |].
      * intros a Ha Hin. apply subseteq_take in Hin.
        apply elem_of_cons in Hin as [->|Hin]; [done|].
        by apply (Hdisj a).
      * eapply sublist_NoDup; [|apply sublist_take].
        apply NoDup_cons. by split.
    + by rewrite Hm1.
    + rewrite Hm1, length_take. lia.
    + exists s'. split_and!.
      * simpl. unfold mbind, M_bind, bind. by rewrite Hrun.
      * rewrite Hm1, take_app_take in Hg'.
        by rewrite reverse_cons, <-app_assoc.
      * by rewrite Hm', Hm1.
Qed.

Lemma good_contains s kvs k :
  good s kvs →
  LRUCache.__contains__ k s = (Ret (bool_decide (k ∈ kvs.*1)), s).
Proof.
  intros (l & Hrep & He & Hnd & Hc & Hsz).
  pose proof (good_length _ _ _ Hrep He) as Hll.
  unfold LRUCache.__contains__. run. do 2 f_equal.
  apply bool_decide_ext. rewrite Hc.
  assert ((zip kvs.*1 l).*1 = kvs.*1) as Hz.
  { apply fst_zip. rewrite length_fmap. lia. }
  split.
  - intros [n Hn]. apply elem_of_list_to_map_2 in Hn.
    rewrite <-Hz. by apply (list_elem_of_fmap_2 fst) in Hn.
  - intros Hin. apply not_eq_None_Some. intros Hn.
    apply not_elem_of_list_to_map in Hn. by rewrite Hz in Hn.
Qed.

Lemma good_len s kvs :
  good s kvs → LRUCache.__len__ s = (Ret (Z.of_nat (length kvs)), s).
Proof.
  intros (l & Hrep & He & Hnd & Hc & Hsz).
  rewrite (good_length _ _ _ Hrep He). unfold LRUCache.__len__. run.
  by rewrite Hsz.
Qed.

Lemma good_items s kvs fuel :
  good s kvs → length kvs ≤ S fuel →
  LRUCache.items fuel s = (Ret (Some kvs), s).
Proof.
  intros (l & Hrep & He & Hnd & Hc & Hsz) Hlen.
  rewrite (good_length _ _ _ Hrep He) in Hlen.
  by rewrite (items_spec _ _ _ Hrep Hlen), He.
Qed.

Lemma resume_created {A} (f : ListHead.t K V → A) s q nd :
  LRUCache.queue s = Some q → LRUCache.nodes s !! q = Some nd →
  LRUCache.resume f LRUCache.Created s =
    (Ret (Some (f nd), LRUCache.Suspended q), s).
Proof.
  intros Hq Hn. unfold LRUCache.resume. run. rewrite Hq. simpl.
  by rewrite Hn.
Qed.

(** A new generator yields the nodes of the list in order, one for each
    resumption, and is suspended on the last node afterwards. *)
Lemma islice_created {A} (f : ListHead.t K V → A) s q t z :
  rep s (q :: t) → dlseg (LRUCache.nodes s) q z (q :: t) q z →
  islice (LRUCache.resume f) (S (length t)) LRUCache.Created s =
    (omap (λ a, f <$> LRUCache.nodes s !! a) (q :: t), LRUCache.Suspended z).
Proof.
  intros [Hq _] [_ (nd & Hn & _ & Hs)].
  rewrite islice_S, (resume_created _ _ _ _ Hq Hn).
  rewrite (islice_seg _ _ _ _ _ _ _ _ Hs Hn eq_refl). simpl.
  by rewrite Hn.
Qed.

Lemma omap_key_entries h l :
  omap (λ a, ListHead.key <$> h !! a) l = (entries h l).*1.
Proof.
  induction l as [|a l IH]; [done|]. rewrite entries_unfold.
  change (omap (λ a, ListHead.key <$> h !! a) (a :: l))
    with (match ListHead.key <$> h !! a with
          | Some k => k :: omap (λ a, ListHead.key <$> h !! a) l
          | None => omap (λ a, ListHead.key <$> h !! a) l
          end).
  rewrite IH. by destruct (h !! a).
Qed.

Lemma good_iter s kvs :
  good s kvs →
  (islice LRUCache.__iter__ (length kvs) LRUCache.Created s).1 = kvs.*1 ∧
  (islice LRUCache.iteritems (length kvs) LRUCache.Created s).1 = kvs.
Proof.
  intros (l & Hrep & He & Hnd & Hc & Hsz).
  rewrite (good_length _ _ _ Hrep He).
  destruct l as [|q t]; [by rewrite <-He|].
  pose proof Hrep as [Hq [Hndl [z Hs]]].
  unfold LRUCache.__iter__, LRUCache.iteritems.
  change (length (q :: t)) with (S (length t)).
  rewrite !(islice_created _ s q t z Hrep Hs). split; [|exact He].
  change (omap (λ a, ListHead.key <$> LRUCache.nodes s !! a) (q :: t)
          = kvs.*1).
  by rewrite omap_key_entries, He.
Qed.

(** ** No dangling reference

    In a reachable state the methods end by returning or by raising
    [KeyError]: the outcome [BadRef] of the embedding never shows up. *)

Lemma items_loop_ret s q t i i' j' fuel acc :
  dlseg (LRUCache.nodes s) i i' t q j' → q ∉ t →
  ∃ o, LRUCache.items_loop fuel q i acc s = (Ret o, s).
Proof.
  revert i i' fuel acc. induction t as [|a t IH]; intros i i' fuel acc.
  - intros [-> _] _. exists (Some acc).
    destruct fuel; simpl; by rewrite bool_decide_eq_false_2 by (by intros ?).
  - intros [-> (nd & Hnd & _ & Hs)] Hq.
    apply not_elem_of_cons in Hq as [Hqa Hq].
    destruct fuel as [|fuel]; simpl; rewrite bool_decide_eq_true_2 by done.
    + by exists None.
    + run. repeat (rewrite Hnd; simpl). by eapply IH.
Qed.

Lemma reachable_no_BadRef c s :
  reachable c s →
  (∀ k v, (LRUCache.__setitem__ k v s).1 = Ret () ∨
          (LRUCache.__setitem__ k v s).1 = Raise KeyError) ∧
  (∀ k, (∃ v, (LRUCache.__getitem__ k s).1 = Ret v) ∨
        (LRUCache.__getitem__ k s).1 = Raise KeyError) ∧
  (∀ k, ∃ b, LRUCache.__contains__ k s = (Ret b, s)) ∧
  LRUCache.__len__ s = (Ret (LRUCache.size s), s) ∧
  (∀ fuel, ∃ o, LRUCache.items fuel s = (Ret o, s)).
Proof.
  intros Hreach. destruct (reachable_inv _ _ Hreach) as (l & Hrep & Hd).
  split_and!.
  - intros k v.
    destruct (setitem_spec s l k v Hrep) as (_ & h1 & _ & _ & Hcase).
    case_bool_decide; [|left; by rewrite Hcase].
    destruct Hcase as (t & z & ndz & _ & _ & Hm).
    destruct (_ !! ListHead.key ndz); [|right; by rewrite Hm].
    destruct Hm as (h2 & -> & _). by left.
  - intros k. destruct (LRUCache.cache s !! k) as [n|] eqn:Hk;
      [|right; by rewrite getitem_miss].
    destruct (Hd _ _ Hk) as (Hin & nd & Hnd & _).
    apply list_elem_of_split in Hin as (l1 & l2 & ->).
    destruct (getitem_hit _ _ _ _ _ _ Hrep Hk Hnd) as (h' & -> & _).
    left. by eexists.
  - intros k. by eexists.
  - done.
  - intros fuel. destruct Hrep as [Hq [Hnd Hc]].
    unfold LRUCache.items. run. rewrite Hq.
    destruct l as [|q t]; [by eexists|]. simpl.
    destruct Hc as [z [_ (nd & Hn & _ & Hs)]]. repeat (rewrite Hn; simpl).
    apply NoDup_cons in Hnd as [Hqt _]. by eapply items_loop_ret.
Qed.
(** ** The properties of the cache *)

(** C4, as the code has it: the constructor takes any integer, zero and
    negative ones included, performs no check and raises nothing; it
    returns an empty cache (empty dict, empty list, size 0) whose
    [maxsize] is the integer given. *)
Theorem C4_init_never_fails (c : Z) :
  LRUCache.__init__ (K:=K) (V:=V) c = Ret (LRUCache.mk ∅ ∅ None 0 c) ∧
  ∀ s : LRUCache.t K V, LRUCache.__init__ c = Ret s →
    LRUCache.cache s = ∅ ∧ LRUCache.queue s = None ∧
    LRUCache.size s = 0%Z ∧ LRUCache.maxsize s = c.
Proof. split; [done|]. by intros s [= <-]. Qed.

(** C9: in every reachable state, [key in cache] tells whether the dict
    has the key and changes nothing; [cache[key]] raises [KeyError]
    (changing nothing) exactly when the dict has no such key, and
    otherwise returns the value of the key's node, the only effect being
    that this node moves to the front of the recency list: the dict,
    [size], [maxsize] and the keys and values of all nodes stay as they
    were, as [items()] before and after shows. *)
Theorem C9_getitem_and_contains (c : Z) (s : LRUCache.t K V) (k : K) :
  reachable c s →
  LRUCache.__contains__ k s =
    (Ret (bool_decide (is_Some (LRUCache.cache s !! k))), s) ∧
  ((LRUCache.__contains__ k s).1 = Ret true ↔
   ∃ v, (LRUCache.__getitem__ k s).1 = Ret v) ∧
  ((LRUCache.__contains__ k s).1 = Ret false ↔
   LRUCache.__getitem__ k s = (Raise KeyError, s)) ∧
  (∀ n, LRUCache.cache s !! k = Some n →
     ∃ l1 l2 nd s',
       rep s (l1 ++ n :: l2) ∧ LRUCache.nodes s !! n = Some nd ∧
       ListHead.key nd = k ∧
       LRUCache.__getitem__ k s = (Ret (ListHead.value nd), s') ∧
       rep s' (n :: l1 ++ l2) ∧
       LRUCache.cache s' = LRUCache.cache s ∧
       LRUCache.size s' = LRUCache.size s ∧
       LRUCache.maxsize s' = LRUCache.maxsize s ∧
       same_data (LRUCache.nodes s) (LRUCache.nodes s') ∧
       ∀ fuel, length l1 + length l2 ≤ fuel →
         LRUCache.items fuel s =
           (Ret (Some (entries (LRUCache.nodes s) l1 ++
                       (k, ListHead.value nd) ::
                       entries (LRUCache.nodes s) l2)), s) ∧
         LRUCache.items fuel s' =
           (Ret (Some ((k, ListHead.value nd) ::
                       entries (LRUCache.nodes s) l1 ++
                       entries (LRUCache.nodes s) l2)), s')).
Proof.
  intros Hreach. destruct (reachable_inv _ _ Hreach) as (l & Hrep & Hd).
  assert (∀ n, LRUCache.cache s !! k = Some n →
     ∃ l1 l2 nd s',
       rep s (l1 ++ n :: l2) ∧ LRUCache.nodes s !! n = Some nd ∧
       ListHead.key nd = k ∧
       LRUCache.__getitem__ k s = (Ret (ListHead.value nd), s') ∧
       rep s' (n :: l1 ++ l2) ∧
       LRUCache.cache s' = LRUCache.cache s ∧
       LRUCache.size s' = LRUCache.size s ∧
       LRUCache.maxsize s' = LRUCache.maxsize s ∧
       same_data (LRUCache.nodes s) (LRUCache.nodes s')) as Hhit.
  { intros n Hk. destruct (Hd _ _ Hk) as (Hin & nd & Hnd & Hkey).
    apply list_elem_of_split in Hin as (l1 & l2 & ->).
    destruct (getitem_hit _ _ _ _ _ _ Hrep Hk Hnd)
      as (h' & Hrun & Hc & Hsame).
    exists l1, l2, nd. eexists. by split_and!. }
  split_and!.
  - done.
  - unfold LRUCache.__contains__. run.
    destruct (LRUCache.cache s !! k) as [n|] eqn:Hk.
    + rewrite bool_decide_eq_true_2 by eauto. split; [|done]. intros _.
      destruct (Hhit n eq_refl) as (? & ? & nd & s' & _ & _ & _ & -> & _).
      by exists (ListHead.value nd).
    + rewrite bool_decide_eq_false_2 by (by intros [? ?]).
      rewrite getitem_miss by done. simpl. split; [done|].
      by intros [v ?].
  - unfold LRUCache.__contains__. run.
    destruct (LRUCache.cache s !! k) as [n|] eqn:Hk.
    + rewrite bool_decide_eq_true_2 by eauto.
      destruct (Hhit n eq_refl) as (? & ? & nd & s' & _ & _ & _ & -> & _).
      split; intros [=].
    + rewrite bool_decide_eq_false_2 by (by intros [? ?]).
      by rewrite getitem_miss.
  - intros n Hk.
    destruct (Hhit n Hk) as (l1 & l2 & nd & s' & Hrep' & Hnd & Hkey & Hrun
                             & Hrep'' & Hc & Hsz & Hm & Hsame).
    exists l1, l2, nd, s'. split_and!; try done.
    intros fuel Hfuel. split.
    + rewrite (items_spec _ _ _ Hrep')
        by (rewrite length_app; simpl; lia).
      rewrite entries_app, (entries_cons _ _ _ _ Hnd).
      unfold kv. by rewrite Hkey.
    + rewrite (items_spec _ _ _ Hrep'')
        by (simpl; rewrite length_app; lia).
      rewrite (entries_same _ _ _ Hsame).
      rewrite (entries_cons _ _ _ _ Hnd), entries_app.
      unfold kv. by rewrite Hkey.
Qed.

(** A single [__setitem__] on a new cache whose [maxsize] is [0]: the
    entry is put in and deleted again at once. *)
Lemma setitem_capacity_zero (k : K) (v : V) :
  ∃ h x, LRUCache.__setitem__ k v (LRUCache.mk ∅ ∅ None 0 0) =
           (Ret (), LRUCache.mk h ∅ (Some x) 0 0).
Proof.
  destruct (setitem_spec (LRUCache.mk ∅ ∅ None 0 0) [] k v)
    as (_ & h1 & Hsame & Hc1 & Hcase).
  { split; [done|]. split; [apply NoDup_nil_2|done]. }
  simpl in Hcase, Hsame. destruct Hcase as (t & z & ndz & E & Hz & Hm).
  change ([] ++ [fresh (dom (∅ : gmap loc (ListHead.t K V)))] = t ++ [z])
    in E.
  apply app_inj_tail in E as [<- <-].
  destruct (same_data_lookup _ _ _ _ Hsame (lookup_insert_eq _ _ _))
    as (nd' & Hnd' & Hkv).
  rewrite Hz in Hnd'. injection Hnd' as <-. injection Hkv as Hkey _.
  rewrite Hkey, lookup_insert_eq in Hm. destruct Hm as (h2 & Hrun & _).
  rewrite Hrun, delete_insert_eq, delete_empty. eauto.
Qed.

(** C7: distinct keys put one after the other into a new cache.  As long
    as there are at most [c] of them, [items()] and the first values of
    both generators give them back last-put first; when there are
    [c + 1] of them, the first key put is gone, the others are all
    there and [len] is [c]; with a capacity of at least one, the entry
    of the first key has also left the list: [items()] and the first
    values of both generators are then the other entries, last-put
    first. *)
Theorem C7_recency_order_and_eviction (c : Z) (kvs : list (K * V)) :
  NoDup kvs.*1 →
  let r := puts kvs (LRUCache.mk ∅ ∅ None 0 c) in
  ((Z.of_nat (length kvs) ≤ c)%Z →
     r.1 = Ret () ∧
     LRUCache.items (length kvs) r.2 = (Ret (Some (reverse kvs)), r.2) ∧
     (islice LRUCache.__iter__ (length kvs) LRUCache.Created r.2).1
       = reverse kvs.*1 ∧
     (islice LRUCache.iteritems (length kvs) LRUCache.Created r.2).1
       = reverse kvs ∧
     LRUCache.__len__ r.2 = (Ret (Z.of_nat (length kvs)), r.2)) ∧
  (∀ k1 v1 rest,
     kvs = (k1, v1) :: rest → Z.of_nat (length kvs) = (c + 1)%Z →
     r.1 = Ret () ∧
     LRUCache.__contains__ k1 r.2 = (Ret false, r.2) ∧
     (∀ k, k ∈ rest.*1 → LRUCache.__contains__ k r.2 = (Ret true, r.2)) ∧
     LRUCache.__len__ r.2 = (Ret c, r.2) ∧
     ((1 ≤ c)%Z →
        LRUCache.items (length rest) r.2 = (Ret (Some (reverse rest)), r.2) ∧
        (islice LRUCache.__iter__ (length rest) LRUCache.Created r.2).1
          = reverse rest.*1 ∧
        (islice LRUCache.iteritems (length rest) LRUCache.Created r.2).1
          = reverse rest)).
Proof.
  intros Hnd r.
  assert ((1 ≤ c)%Z → ∃ s', r = (Ret (), s') ∧
            good s' (take (Z.to_nat c) (reverse kvs))) as Hgood.
  { intros Hc.
    destruct (puts_good kvs (LRUCache.mk ∅ ∅ None 0 c) [] (good_init c))
      as (s' & Hrun & Hg & _); [by rewrite app_nil_r|simpl; lia..|].
    rewrite app_nil_r in Hg. by exists s'. }
  split.
  - intros Hlen. destruct (decide (1 ≤ c)%Z) as [Hc|Hc].
    + destruct (Hgood Hc) as (s' & -> & Hg).
      rewrite take_ge in Hg by (rewrite length_reverse; lia).
      destruct (good_iter _ _ Hg) as [Hi1 Hi2].
      rewrite length_reverse in Hi1, Hi2. simpl. split_and!.
      * done.
      * apply good_items; [done|]. rewrite length_reverse. lia.
      * by rewrite Hi1, fmap_reverse.
      * done.
      * by rewrite (good_len _ _ Hg), length_reverse.
    + destruct kvs as [|? ?]; [|simpl in Hlen; lia]. by subst r.
  - intros k1 v1 rest -> Hlen. simpl in Hlen, Hnd.
    apply NoDup_cons in Hnd as [Hk1 Hnd].
    destruct (decide (1 ≤ c)%Z) as [Hc|Hc].
    + destruct (Hgood Hc) as (s' & -> & Hg).
      rewrite reverse_cons, take_app_length' in Hg
        by (rewrite length_reverse; lia).
      destruct (good_iter _ _ Hg) as [Hi1 Hi2].
      rewrite length_reverse in Hi1, Hi2.
      simpl. rewrite !(good_contains _ _ _ Hg), (good_len _ _ Hg).
      rewrite fmap_reverse, length_reverse. split_and!.
      * done.
      * rewrite bool_decide_eq_false_2; [done|]. by rewrite elem_of_reverse.
      * intros k Hk. rewrite (good_contains _ _ _ Hg), fmap_reverse.
        rewrite bool_decide_eq_true_2; [done|]. by rewrite elem_of_reverse.
      * do 2 f_equal. lia.
      * intros _. split_and!.
        -- apply good_items; [done|]. rewrite length_reverse. lia.
        -- by rewrite Hi1, fmap_reverse.
        -- done.
    + destruct rest as [|? ?]; [|simpl in Hlen; lia].
      assert (c = 0%Z) as -> by (simpl in Hlen; lia).
      destruct (setitem_capacity_zero k1 v1) as (h & x & Hrun).
      subst r. simpl. unfold mbind, M_bind, bind. rewrite Hrun. simpl.
      split_and!; try done; first [by intros k Hk%elem_of_nil|lia].
Qed.

(** In a reachable state with a node in the list, a generator never comes
    to its end: [while node] tests a [ListHead], which is always true,
    and [node.next] goes round the cycle. *)
Lemma iter_never_finishes {A} (f : ListHead.t K V → A) c s n :
  reachable c s → LRUCache.queue s ≠ None →
  ∃ r fr, islice (LRUCache.resume f) n LRUCache.Created s = (r, fr) ∧
          length r = n ∧ fr ≠ LRUCache.Finished.
Proof.
  intros Hreach Hq. destruct (reachable_inv _ _ Hreach) as (l & Hrep & _).
  destruct n as [|n]; [by exists [], LRUCache.Created|].
  destruct l as [|q t]; [by destruct Hrep|].
  destruct (cyc_elem (LRUCache.nodes s) (q :: t) q) as [nd Hn];
    [by destruct Hrep|by left|].
  destruct (islice_running f s (q :: t) q n) as (r & p' & Hrun & Hlen & _);
    [by destruct Hrep|by left|].
  exists (f nd :: r), (LRUCache.Suspended p').
  rewrite islice_S, (resume_created f s q nd), Hrun;
    [|by destruct Hrep|done].
  split_and!; [done|by rewrite <-Hlen|done].
Qed.

(** A [__setitem__] that returns leaves [size] within [0 .. maxsize] when
    it was so before; one that raises does not (see [setitem_spec]). *)
Lemma setitem_ret_bound s k v s' :
  inv s → (0 ≤ LRUCache.size s ≤ LRUCache.maxsize s)%Z →
  LRUCache.__setitem__ k v s = (Ret (), s') →
  (0 ≤ LRUCache.size s' ≤ LRUCache.maxsize s')%Z ∧
  LRUCache.maxsize s' = LRUCache.maxsize s.
Proof.
  intros (l & Hrep & _) Hb.
  destruct (setitem_spec s l k v Hrep) as (_ & h1 & _ & _ & Hcase).
  case_bool_decide as Hsz.
  - destruct Hcase as (t & z & ndz & _ & _ & Hm).
    destruct (_ !! ListHead.key ndz); [|by rewrite Hm].
    destruct Hm as (h2 & -> & _). by intros [= <-].
  - rewrite Hcase. intros [= <-]. simpl. lia.
Qed.

Lemma puts_ret_bound kvs s s' :
  inv s → (0 ≤ LRUCache.size s ≤ LRUCache.maxsize s)%Z →
  puts kvs s = (Ret (), s') →
  (0 ≤ LRUCache.size s' ≤ LRUCache.maxsize s')%Z.
Proof.
  revert s. induction kvs as [|[k v] kvs IH]; intros s Hinv Hb.
  - by intros [= <-].
  - simpl. unfold mbind, M_bind, bind.
    destruct (LRUCache.__setitem__ k v s) as [[[]|e] s1] eqn:E; [|done].
    destruct (setitem_ret_bound _ _ _ _ Hinv Hb E) as [Hb1 _].
    apply IH; [|done].
    replace s1 with (LRUCache.__setitem__ k v s).2 by (by rewrite E).
    by apply setitem_inv.
Qed.
End Methods.

(** * The memoizing decorator *)

Section Memo.
Context {Args Kw B : Type} `{Countable Args, Countable Kw}.
Implicit Types (func : Args → Kw → B) (d : gmap (Args * Kw) B).

Lemma cached_func_dict func args kwargs d :
  cached_func func args kwargs d =
    (Ret (default (func args kwargs) (d !! (args, kwargs))),
     match d !! (args, kwargs) with
     | Some _ => d
     | None => <[(args, kwargs) := func args kwargs]> d
     end).
Proof.
  unfold cached_func, mbind, M_bind, bind. simpl.
  destruct (d !! (args, kwargs)) as [b|] eqn:Hd.
  - rewrite bool_decide_eq_true_2 by eauto. by rewrite Hd.
  - rewrite bool_decide_eq_false_2 by (by intros [? ?]).
    by rewrite lookup_insert_eq.
Qed.

(** With a dict behind it, a run of calls returns the values of [func]
    and ends with a dict that has all it had before and every key of
    the run. *)
Lemma calls_dict func cs d0 :
  (∀ key b, d0 !! key = Some b → b = func key.1 key.2) →
  ∃ d, calls func cs (Dict d0) =
         (Ret ((λ key, func key.1 key.2) <$> cs), Dict d) ∧
       d0 ⊆ d ∧
       ∀ key, d !! key = if decide (key ∈ cs)
                         then Some (func key.1 key.2) else d0 !! key.
Proof.
  revert d0. induction cs as [|[a kw] cs IH]; intros d0 Hd0.
  - exists d0. split_and!; [done..|]. intros key.
    case_decide as Hin; [by apply elem_of_nil in Hin|done].
  - set (d1 := match d0 !! (a, kw) with
               | Some _ => d0
               | None => <[(a, kw) := func a kw]> d0
               end).
    assert (d1 !! (a, kw) = Some (func a kw)) as Hd1a.
    { unfold d1. destruct (d0 !! (a, kw)) as [b|] eqn:Hb.
      - by rewrite Hb, (Hd0 _ _ Hb).
      - apply lookup_insert_eq. }
    assert (∀ key, key ≠ (a, kw) → d1 !! key = d0 !! key) as Hd1o.
    { intros key Hne. unfold d1. destruct (d0 !! (a, kw)); [done|].
      by rewrite lookup_insert_ne. }
    assert (d0 ⊆ d1) as Hsub.
    { unfold d1. destruct (d0 !! (a, kw)) eqn:Hb; [done|].
      by apply insert_subseteq. }
    destruct (IH d1) as (d & Hrun & Hsub' & Hd).
    { intros key b. destruct (decide (key = (a, kw))) as [->|Hne].
      - rewrite Hd1a. by intros [= <-].
      - rewrite Hd1o by done. apply Hd0. }
    exists d. split_and!.
    + assert (default (func a kw) (d0 !! (a, kw)) = func a kw) as Hv.
      { destruct (d0 !! (a, kw)) as [b|] eqn:Hb; [|done].
        simpl. apply (Hd0 _ _ Hb). }
      simpl. unfold mbind, M_bind, bind, call_cached.
      rewrite cached_func_dict. fold d1. by rewrite Hrun, Hv.
    + by etrans.
    + intros key. rewrite Hd.
      destruct (decide (key = (a, kw))) as [->|Hne].
      * rewrite Hd1a.
        destruct (decide ((a, kw) ∈ (a, kw) :: cs)) as [_|Hn];
          [by case_decide|]. exfalso. apply Hn. by left.
      * rewrite Hd1o by done.
        destruct (decide (key ∈ cs)) as [Hin|Hin],
                 (decide (key ∈ (a, kw) :: cs)) as [Hin'|Hin']; try done.
        -- exfalso. apply Hin'. by right.
        -- by apply elem_of_cons in Hin' as [?|?].
Qed.

(** C10: with [maxsize] false ([None], also when omitted, or [0]),
    [lru_cache] raises nothing and builds a dict, not an [LRUCache]; a
    call then always returns the value of [func], leaves a dict behind
    and deletes no entry; after any run of calls the dict holds exactly
    the keys of the run, each with the value of [func]. *)
Theorem C10_falsy_maxsize_plain_dict :
  lru_cache (Args:=Args) (Kw:=Kw) (B:=B) None = Ret (Dict ∅) ∧
  lru_cache (Args:=Args) (Kw:=Kw) (B:=B) (Some 0%Z) = Ret (Dict ∅) ∧
  (∀ func args kwargs d,
     ∃ b d', call_cached func args kwargs (Dict d) = (Ret b, Dict d') ∧
             d ⊆ d' ∧ d' !! (args, kwargs) = Some b) ∧
  (∀ func cs,
     ∃ d, calls func cs (Dict ∅) =
            (Ret ((λ key, func key.1 key.2) <$> cs), Dict d) ∧
          ∀ key, d !! key = if decide (key ∈ cs)
                            then Some (func key.1 key.2) else None).
Proof.
  split_and!; [done..| |].
  - intros func args kwargs d. unfold call_cached.
    rewrite cached_func_dict. eexists _, _. split; [done|].
    destruct (d !! (args, kwargs)) as [b|] eqn:Hb; simpl.
    + by split.
    + split; [by apply insert_subseteq|apply lookup_insert_eq].
  - intros func cs. destruct (calls_dict func cs ∅) as (d & Hrun & _ & Hd).
    { intros key b. by rewrite lookup_empty. }
    exists d. split; [done|]. intros key. rewrite Hd.
    by rewrite lookup_empty.
Qed.
End Memo.

(** * The properties on concrete runs *)

(** C4, as stated, fails: with capacity [0] the constructor returns a
    cache object and raises nothing. *)
Lemma C4_counterexample :
  (0 ≤ 0)%Z ∧
  LRUCache.__init__ (K:=Z) (V:=Z) 0 = Ret (new 0) ∧
  ¬ ∃ e, LRUCache.__init__ (K:=Z) (V:=Z) 0 = Raise e.
Proof. split_and!; [done..|]. by intros [e ?]. Qed.

(** C8: capacity 3, [put(0,0); put(1,10); put(2,20)]; [get(0)] returns
    [0] and makes key [0] the first entry; [put(3,30)] then evicts key
    [1]: keys [0], [2] and [3] are present, key [1] is not. *)
Theorem C8_promotion_on_read :
  let r := LRUCache.__getitem__ 0%Z three_entries in
  let r' := LRUCache.__setitem__ 3%Z 30%Z r.2 in
  (LRUCache.items 3 three_entries).1
    = Ret (Some [(2, 20); (1, 10); (0, 0)])%Z ∧
  r.1 = Ret 0%Z ∧
  (LRUCache.items 3 r.2).1 = Ret (Some [(0, 0); (2, 20); (1, 10)])%Z ∧
  r'.1 = Ret () ∧
  (LRUCache.items 3 r'.2).1 = Ret (Some [(3, 30); (0, 0); (2, 20)])%Z ∧
  (LRUCache.__contains__ 0%Z r'.2).1 = Ret true ∧
  (LRUCache.__contains__ 2%Z r'.2).1 = Ret true ∧
  (LRUCache.__contains__ 3%Z r'.2).1 = Ret true ∧
  (LRUCache.__contains__ 1%Z r'.2).1 = Ret false ∧
  (LRUCache.__len__ r'.2).1 = Ret 3%Z.
Proof. vm_compute. by split_and!. Qed.

(** C1 on the code: putting a key that is present creates a second node.
    With capacity 2, [len] goes from 1 to 2 and [items()] shows key [7]
    twice; with capacity 1, the second [put] runs the eviction, which
    deletes key [7] from the dict, so that [7 in cache] is false and
    [cache[7]] raises [KeyError]. *)
Theorem C1_put_present_key_adds_node :
  (LRUCache.__len__ (puts [(7, 1)%Z] (new 2)).2).1 = Ret 1%Z ∧
  (LRUCache.__len__ (put_twice 2)).1 = Ret 2%Z ∧
  (LRUCache.items 2 (put_twice 2)).1 = Ret (Some [(7, 2); (7, 1)])%Z ∧
  (LRUCache.__getitem__ 7%Z (put_twice 2)).1 = Ret 2%Z ∧
  (puts [(7, 1); (7, 2)]%Z (new 1)).1 = Ret () ∧
  (LRUCache.__len__ (put_twice 1)).1 = Ret 1%Z ∧
  (LRUCache.__contains__ 7%Z (put_twice 1)).1 = Ret false ∧
  (LRUCache.__getitem__ 7%Z (put_twice 1)).1 = Raise KeyError.
Proof. vm_compute. by split_and!. Qed.

(** C2 on the code: after [cache[7] = 1; cache[7] = 2] with capacity 2
    the list holds key [7] twice and [size] is 2, while the dict has the
    single key [7]. *)
Theorem C2_list_and_dict_disagree :
  (LRUCache.items 2 (put_twice 2)).1 = Ret (Some [(7, 2); (7, 1)])%Z ∧
  LRUCache.size (put_twice 2) = 2%Z ∧
  map_to_list (LRUCache.cache (put_twice 2)) = [(7%Z, 1)] ∧
  base.size (LRUCache.cache (put_twice 2)) = 1.
Proof. vm_compute. by split_and!. Qed.

(** C3 on the code: with capacity 1, [cache[7] = 1; cache[7] = 2;
    cache[8] = 3] raises [KeyError] in the eviction step of the third
    assignment, the first two having returned. *)
Theorem C3_eviction_raises_KeyError :
  (puts [(7, 1); (7, 2)]%Z (new 1)).1 = Ret () ∧
  (LRUCache.__setitem__ 8%Z 3%Z (put_twice 1)).1 = Raise KeyError ∧
  put_thrice.1 = Raise KeyError.
Proof. vm_compute. by split_and!. Qed.

(** C6 on the code: the assignment that raises leaves [size] at 2 in a
    cache whose [maxsize] is 1. *)
Theorem C6_size_exceeds_maxsize :
  put_thrice.1 = Raise KeyError ∧
  (LRUCache.__len__ put_thrice.2).1 = Ret 2%Z ∧
  LRUCache.maxsize put_thrice.2 = 1%Z.
Proof. vm_compute. by split_and!. Qed.

Lemma one_entry_suspended {A} (f : ListHead.t Z Z → A) n :
  islice (LRUCache.resume f) n (LRUCache.Suspended 0) one_entry =
    (replicate n (f (ListHead.mk 0 0 7%Z 1%Z)), LRUCache.Suspended 0).
Proof.
  assert (LRUCache.nodes one_entry !! 0 = Some (ListHead.mk 0 0 7%Z 1%Z))
    as Hn by (by vm_compute).
  induction n as [|n IH]; [done|].
  rewrite islice_S, (resume_suspended f _ _ _ _ Hn Hn).
  cbn [ListHead.next]. by rewrite IH.
Qed.

(** C5 on the code: on a cache holding the single entry [(7, 1)], where
    [items()] returns the one pair, each generator yields that entry
    again at every resumption and is never exhausted: after [n + 1]
    resumptions it has yielded [n + 1] values and is suspended. *)
Theorem C5_generators_never_stop (n : nat) :
  (LRUCache.items 1 one_entry).1 = Ret (Some [(7, 1)%Z]) ∧
  islice LRUCache.__iter__ (S n) LRUCache.Created one_entry =
    (replicate (S n) 7%Z, LRUCache.Suspended 0) ∧
  islice LRUCache.iteritems (S n) LRUCache.Created one_entry =
    (replicate (S n) (7, 1)%Z, LRUCache.Suspended 0).
Proof.
  assert (LRUCache.nodes one_entry !! 0 = Some (ListHead.mk 0 0 7%Z 1%Z))
    as Hn by (by vm_compute).
  assert (LRUCache.queue one_entry = Some 0) as Hq by (by vm_compute).
  split; [by vm_compute|].
  unfold LRUCache.__iter__, LRUCache.iteritems.
  by rewrite !islice_S, !(resume_created _ _ _ _ Hq Hn),
    !one_entry_suspended.
Qed.

(** C7 at work: three keys into caches of capacity 3 and 2. *)
Lemma C7_witness :
  NoDup [(1, 10); (2, 20); (3, 30)]%Z.*1 ∧
  LRUCache.items 3 (puts [(1, 10); (2, 20); (3, 30)]%Z (new 3)).2 =
    (Ret (Some [(3, 30); (2, 20); (1, 10)]%Z),
     (puts [(1, 10); (2, 20); (3, 30)]%Z (new 3)).2) ∧
  LRUCache.__contains__ 1%Z (puts [(1, 10); (2, 20); (3, 30)]%Z (new 2)).2 =
    (Ret false, (puts [(1, 10); (2, 20); (3, 30)]%Z (new 2)).2) ∧
  LRUCache.__len__ (puts [(1, 10); (2, 20); (3, 30)]%Z (new 2)).2 =
    (Ret 2%Z, (puts [(1, 10); (2, 20); (3, 30)]%Z (new 2)).2) ∧
  LRUCache.items 2 (puts [(1, 10); (2, 20); (3, 30)]%Z (new 2)).2 =
    (Ret (Some [(3, 30); (2, 20)]%Z),
     (puts [(1, 10); (2, 20); (3, 30)]%Z (new 2)).2).
Proof.
  assert (NoDup [(1, 10); (2, 20); (3, 30)]%Z.*1) as Hnd.
  { apply (bool_decide_unpack _). vm_compute. exact I. }
  split; [exact Hnd|]. split.
  - destruct (proj1 (C7_recency_order_and_eviction 3 _ Hnd))
      as (_ & Hi & _); [simpl; lia|]. exact Hi.
  - destruct (proj2 (C7_recency_order_and_eviction 2 _ Hnd)
                _ _ _ eq_refl) as (_ & Hc & _ & Hl & Hi); [simpl; lia|].
    split; [exact Hc|]. split; [exact Hl|].
    destruct Hi as (Hi & _); [lia|]. exact Hi.
Defined.

(** C9 at work: the cache holding the single key [7]. *)
Lemma C9_witness :
  reachable 1 one_entry ∧
  (LRUCache.__contains__ 7%Z one_entry).1 = Ret true ∧
  ∃ v, (LRUCache.__getitem__ 7%Z one_entry).1 = Ret v.
Proof.
  assert (reachable 1 one_entry) as Hr.
  { apply (reach_setitem 1 (new 1) 7%Z 1%Z), reach_init. }
  destruct (C9_getitem_and_contains 1 one_entry 7%Z Hr)
    as (Hc & Hiff & _).
  assert ((LRUCache.__contains__ 7%Z one_entry).1 = Ret true) as Ht.
  { rewrite Hc. by vm_compute. }
  split; [exact Hr|]. split; [exact Ht|]. by apply Hiff.
Defined.

(** * More on the methods of ListHead *)

Section MoreShape.
Context {K V : Type}.
Implicit Types (h : gmap loc (ListHead.t K V)) (l : list loc).
Implicit Types (nd : ListHead.t K V).

(** A cycle can be read from its second node as well. *)
Lemma cyc_rotate h a t : cyc h (a :: t) → cyc h (t ++ [a]).
Proof.
  intros [Hnd [z Hs]]. split.
  { by rewrite <-Permutation_cons_append. }
  destruct t as [|b t]; [by exists z|].
  destruct Hs as [_ (nd & Hn & Hp & Hs)].
  assert (ListHead.next nd = b) as Hb by (by destruct Hs as [-> _]).
  exists a. change (dlseg h b a ((b :: t) ++ [a]) b a).
  apply dlseg_app. exists a, z. split; [by rewrite Hb in Hs|].
  split; [done|]. by exists nd.
Qed.

Lemma append_spec h a t x ndx :
  cyc h (a :: t) → x ∉ a :: t → h !! x = Some ndx →
  ∃ h', ListHead.append a x h = Some h' ∧ cyc h' (a :: x :: t) ∧
        same_data h h'.
Proof.
  intros [Hnd [z Hs]] Hx Hhx.
  apply not_elem_of_cons in Hx as [Hxa Hxt].
  apply NoDup_cons in Hnd as [Hat Hndt].
  destruct Hs as [_ (nda & Ha & Hpa & Hs)].
  destruct t as [|p t].
  - destruct Hs as [Hna <-].
    set (h1 := <[a := upd_prev x nda]> h).
    set (h2 := <[x := upd_next a ndx]> h1).
    set (h3 := <[x := upd_prev a (upd_next a ndx)]> h2).
    set (h4 := <[a := upd_next x (upd_prev x nda)]> h3).
    assert (h1 !! x = Some ndx) as Hx1.
    { unfold h1. by rewrite lookup_insert_ne. }
    assert (h2 !! x = Some (upd_next a ndx)) as Hx2
      by apply lookup_insert_eq.
    assert (h3 !! a = Some (upd_prev x nda)) as Ha3.
    { unfold h3, h2. rewrite !lookup_insert_ne by done.
      apply lookup_insert_eq. }
    exists h4. split_and!.
    + unfold ListHead.append. rewrite Ha. simpl. rewrite Hna.
      rewrite (set_prev_Some _ _ _ _ Ha). simpl. fold h1.
      rewrite (set_next_Some _ _ _ _ Hx1). simpl. fold h2.
      rewrite (set_prev_Some _ _ _ _ Hx2). simpl. fold h3.
      by rewrite (set_next_Some _ _ _ _ Ha3).
    + split.
      { apply NoDup_cons. split; [|apply NoDup_singleton].
        rewrite list_elem_of_singleton. congruence. }
      exists x. split; [done|]. eexists. split; [apply lookup_insert_eq|].
      split; [done|]. split; [done|]. eexists. split.
      { unfold h4. rewrite lookup_insert_ne by done. apply lookup_insert_eq. }
      done.
    + eapply same_data_trans; [eapply same_data_trans;
        [eapply same_data_trans|]|]; eapply same_data_insert; done.
  - destruct Hs as [Hna (ndp & Hp & Hpp & Hs)].
    apply not_elem_of_cons in Hat as [Hap Hat].
    apply not_elem_of_cons in Hxt as [Hxp Hxt].
    apply NoDup_cons in Hndt as [Hpt Hndt].
    set (h1 := <[p := upd_prev x ndp]> h).
    set (h2 := <[x := upd_next p ndx]> h1).
    set (h3 := <[x := upd_prev a (upd_next p ndx)]> h2).
    set (h4 := <[a := upd_next x nda]> h3).
    assert (h1 !! x = Some ndx) as Hx1.
    { unfold h1. by rewrite lookup_insert_ne. }
    assert (h2 !! x = Some (upd_next p ndx)) as Hx2
      by apply lookup_insert_eq.
    assert (h3 !! a = Some nda) as Ha3.
    { unfold h3, h2, h1. by rewrite !lookup_insert_ne. }
    assert (dlseg h4 p x (p :: t) a z) as Hs4.
    { assert (a ∉ p :: t) as Hapt by (by apply not_elem_of_cons).
      assert (x ∉ p :: t) as Hxpt by (by apply not_elem_of_cons).
      eapply (dlseg_frame h1).
      - intros b Hb. unfold h4, h3, h2.
        rewrite !lookup_insert_ne; [done|by intros ->..].
      - apply dlseg_set_prev_head with (i' := a); [done..|].
        split; [done|]. by exists ndp. }
    exists h4. split_and!.
    + unfold ListHead.append. rewrite Ha. simpl. rewrite <-Hna.
      rewrite (set_prev_Some _ _ _ _ Hp). simpl. fold h1.
      rewrite (set_next_Some _ _ _ _ Hx1). simpl. fold h2.
      rewrite (set_prev_Some _ _ _ _ Hx2). simpl. fold h3.
      by rewrite (set_next_Some _ _ _ _ Ha3).
    + split.
      { apply NoDup_cons. split.
        - rewrite !elem_of_cons. intros [?|[?|?]]; congruence.
        - apply NoDup_cons. split; [|by apply NoDup_cons].
          rewrite elem_of_cons. intros [?|?]; congruence. }
      exists z. split; [done|]. exists (upd_next x nda).
      split; [apply lookup_insert_eq|]. split; [done|].
      split; [done|]. exists (upd_prev a (upd_next p ndx)). split.
      { unfold h4. rewrite lookup_insert_ne by done. apply lookup_insert_eq. }
      split; [done|]. exact Hs4.
    + eapply same_data_trans; [eapply same_data_trans;
        [eapply same_data_trans|]|]; eapply same_data_insert; done.
Qed.

(** X1: [self.prepend(node)], [self] being a node of a cycle and [node]
    an object outside it (whatever its links are), puts [node] right
    before [self]: read from [node] the cycle is [node], [self], and so
    on; read from [self], [node] comes last.  No key or value changes. *)
Theorem X1_prepend_inserts_before h q t x ndx :
  cyc h (q :: t) → x ∉ q :: t → h !! x = Some ndx →
  ∃ h', ListHead.prepend q x h = Some h' ∧
        cyc h' (x :: q :: t) ∧ cyc h' (q :: t ++ [x]) ∧ same_data h h'.
Proof.
  intros [Hnd [z Hs]] Hx Hhx.
  destruct (prepend_spec _ _ _ _ _ _ Hnd Hx Hhx Hs)
    as (h' & Hrun & Hs' & Hsame).
  assert (cyc h' (x :: q :: t)) as Hc.
  { split; [by apply NoDup_cons|]. by exists z. }
  exists h'. split_and!; [done..| |done]. by apply cyc_rotate in Hc.
Qed.

(** X2: [node.unlink()] on a node of a cycle.  When the cycle has other
    nodes, they form the cycle that is left, in the same order; when the
    node is alone, nothing changes.  In both cases the node itself keeps
    its [prev] and [next], and no key or value changes. *)
Theorem X2_unlink_removes_node h l1 n l2 :
  cyc h (l1 ++ n :: l2) →
  ∃ h', ListHead.unlink n h = Some h' ∧
        same_data h h' ∧ h' !! n = h !! n ∧
        (l1 ++ l2 ≠ [] → cyc h' (l1 ++ l2)) ∧
        (l1 ++ l2 = [] → h' = h).
Proof.
  intros Hc. destruct l1 as [|q t1].
  - destruct l2 as [|q t2].
    + destruct Hc as [_ [z [_ (nd & Hn & Hp & Hx & <-)]]].
      exists h. rewrite (unlink_self _ _ _ Hn Hp Hx).
      split_and!; [done|apply same_data_refl|done..].
    + apply cyc_rotate in Hc. destruct Hc as [Hnd [z Hs]].
      destruct (unlink_spec h (q :: t2) n [] q z)
        as (h' & z' & Hrun & Hs' & Hsame & Hn); [done..|].
      exists h'. split_and!; [done..| |done]. intros _.
      rewrite app_nil_r in Hs'. split; [|by exists z'].
      by apply NoDup_app in Hnd as (? & _).
  - destruct Hc as [Hnd [z Hs]].
    destruct (unlink_spec h (q :: t1) n l2 q z)
      as (h' & z' & Hrun & Hs' & Hsame & Hn); [done..|].
    exists h'. split_and!; [done..| |done]. intros _.
    split; [|by exists z'].
    change (NoDup ((q :: t1) ++ n :: l2)) in Hnd.
    apply NoDup_app in Hnd as (Hd1 & Hdisj & Hd2).
    apply NoDup_cons in Hd2 as [_ Hd2].
    change (NoDup ((q :: t1) ++ l2)). apply NoDup_app.
    split_and!; [done| |done].
    intros a Ha Ha'. apply (Hdisj _ Ha). by right.
Qed.

(** X3: [self.append(node)], [self] being a node of a cycle and [node] an
    object outside it, puts [node] right after [self]: read from [self]
    the cycle is [self], [node], and then the old successors.  No key or
    value changes. *)
Theorem X3_append_inserts_after h a t x ndx :
  cyc h (a :: t) → x ∉ a :: t → h !! x = Some ndx →
  ∃ h', ListHead.append a x h = Some h' ∧ cyc h' (a :: x :: t) ∧
        same_data h h'.
Proof. apply append_spec. Qed.
End MoreShape.

Lemma two_lone_nodes_cyc : cyc two_lone_nodes [0].
Proof.
  split; [apply NoDup_singleton|]. exists 0. split; [done|].
  by exists (ListHead.mk 0 0 7%Z 1%Z).
Qed.

Lemma three_entries_cyc : cyc (LRUCache.nodes three_entries) [2; 1; 0].
Proof.
  split. { apply (bool_decide_unpack _). by vm_compute. }
  exists 0. split; [done|]. exists (ListHead.mk 0 1 2%Z 20%Z).
  split; [by vm_compute|]. split; [done|]. split; [done|].
  exists (ListHead.mk 2 0 1%Z 10%Z).
  split; [by vm_compute|]. split; [done|]. split; [done|].
  exists (ListHead.mk 1 2 0%Z 0%Z). by split; [vm_compute|].
Qed.

(** X1 at work: the spare node in front of the lone one. *)
Lemma X1_witness :
  ∃ h', ListHead.prepend 0 1 two_lone_nodes = Some h' ∧
        cyc h' [1; 0] ∧ cyc h' [0; 1] ∧ same_data two_lone_nodes h'.
Proof.
  apply (X1_prepend_inserts_before two_lone_nodes 0 [] 1
           (ListHead.mk 1 1 8%Z 2%Z) two_lone_nodes_cyc).
  - rewrite list_elem_of_singleton. lia.
  - reflexivity.
Defined.

(** X2 at work: the middle one of three nodes is unlinked. *)
Lemma X2_witness :
  ∃ h', ListHead.unlink 1 (LRUCache.nodes three_entries) = Some h' ∧
        same_data (LRUCache.nodes three_entries) h' ∧
        h' !! 1 = LRUCache.nodes three_entries !! 1 ∧
        cyc h' [2; 0].
Proof.
  destruct (X2_unlink_removes_node (LRUCache.nodes three_entries)
              [2] 1 [0] three_entries_cyc)
    as (h' & Hrun & Hsame & Hn & Hc & _).
  exists h'. split_and!; [done..|]. by apply Hc.
Defined.

(** X3 at work: the spare node after the lone one. *)
Lemma X3_witness :
  ∃ h', ListHead.append 0 1 two_lone_nodes = Some h' ∧
        cyc h' [0; 1] ∧ same_data two_lone_nodes h'.
Proof.
  apply (X3_append_inserts_after two_lone_nodes 0 [] 1
           (ListHead.mk 1 1 8%Z 2%Z) two_lone_nodes_cyc).
  - rewrite list_elem_of_singleton. lia.
  - reflexivity.
Defined.

(** * The cache as a list of entries *)

Section Refinement.
Context {K V : Type} `{Countable K}.
Implicit Types (self s : LRUCache.t K V) (l : list loc).
Implicit Types (h : gmap loc (ListHead.t K V)) (kvs : list (K * V)).

Ltac run :=
  unfold mbind, M_bind, bind, LRUCache.gets,
    ret, raise, LRUCache.set_queue, LRUCache.set_size,
    LRUCache.set_cache, LRUCache.set_nodes, LRUCache.call, LRUCache.attr;
  simpl.

Lemma lru_take_Some k kvs v rest :
  lru_take k kvs = Some (v, rest) →
  ∃ kvs1 kvs2, kvs = kvs1 ++ (k, v) :: kvs2 ∧ rest = kvs1 ++ kvs2 ∧
               k ∉ kvs1.*1.
Proof.
  revert rest. induction kvs as [|[k' v'] kvs IH]; intros rest; [done|].
  simpl. case_decide as Hk.
  - intros [= <- <-]. subst k'. exists [], kvs. split_and!; [done..|].
    apply not_elem_of_nil.
  - destruct (lru_take k kvs) as [[v0 rest0]|]; [|done].
    intros [= <- <-]. destruct (IH _ eq_refl) as (kvs1 & kvs2 & -> & -> & Hn).
    exists ((k', v') :: kvs1), kvs2. split_and!; [done..|].
    simpl. by apply not_elem_of_cons.
Qed.

Lemma lru_take_None k kvs : lru_take k kvs = None → k ∉ kvs.*1.
Proof.
  induction kvs as [|[k' v'] kvs IH]; [intros _; apply not_elem_of_nil|].
  simpl. case_decide as Hk; [done|].
  destruct (lru_take k kvs) as [[v0 rest0]|]; [done|]. intros _.
  apply not_elem_of_cons. auto.
Qed.

Lemma entries_length_alloc h l :
  (∀ a, a ∈ l → is_Some (h !! a)) → length (entries h l) = length l.
Proof.
  induction l as [|a l IH]; intros Ha; [done|].
  destruct (Ha a) as [nd Hnd]; [by left|].
  rewrite (entries_cons _ _ _ _ Hnd). simpl. f_equal. apply IH.
  intros b Hb. apply Ha. by right.
Qed.

(** The entries [kvs] of a cache and the nodes that hold them split at
    the same place. *)
Lemma good_split s l kvs1 k v kvs2 :
  rep s l → entries (LRUCache.nodes s) l = kvs1 ++ (k, v) :: kvs2 →
  ∃ l1 n l2 nd,
    l = l1 ++ n :: l2 ∧ LRUCache.nodes s !! n = Some nd ∧ kv nd = (k, v) ∧
    entries (LRUCache.nodes s) l1 = kvs1 ∧
    entries (LRUCache.nodes s) l2 = kvs2 ∧
    length l1 = length kvs1 ∧ length l2 = length kvs2.
Proof.
  intros [_ Hc] He.
  assert (∀ a, a ∈ l → is_Some (LRUCache.nodes s !! a)) as Hal.
  { intros a. by apply cyc_elem. }
  pose proof (entries_length_alloc _ _ Hal) as Hlen.
  rewrite He, length_app in Hlen. simpl in Hlen.
  rewrite <-(take_drop (length kvs1) l), entries_app in He.
  assert (length (entries (LRUCache.nodes s) (take (length kvs1) l))
          = length kvs1) as Hl1.
  { rewrite entries_length_alloc.
    - rewrite length_take. lia.
    - intros a Ha. apply Hal. by apply (subseteq_take (length kvs1)). }
  apply app_inj_1 in He as [He1 He2]; [|done].
  destruct (drop (length kvs1) l) as [|n l2] eqn:Hd; [done|].
  destruct (Hal n) as [nd Hnd].
  { rewrite <-(take_drop (length kvs1) l), Hd, elem_of_app.
    right. by left. }
  rewrite (entries_cons _ _ _ _ Hnd) in He2.
  injection He2 as Hkey Hval He2.
  assert (kv nd = (k, v)) as Hkv by (unfold kv; by rewrite Hkey, Hval).
  assert (length l2 = length kvs2) as Hl2.
  { rewrite <-He2. symmetry. apply entries_length_alloc.
    intros a Ha. apply Hal.
    rewrite <-(take_drop (length kvs1) l), Hd, elem_of_app.
    right. by right. }
  exists (take (length kvs1) l), n, l2, nd.
  rewrite <-Hd, take_drop. split_and!; try done.
  rewrite length_take. lia.
Qed.

(** [__getitem__] on a key of the cache returns its value and moves its
    entry to the front. *)
Lemma good_getitem_hit s kvs1 k v kvs2 :
  good s (kvs1 ++ (k, v) :: kvs2) →
  ∃ s', LRUCache.__getitem__ k s = (Ret v, s') ∧
        good s' ((k, v) :: kvs1 ++ kvs2) ∧
        LRUCache.maxsize s' = LRUCache.maxsize s.
Proof.
  intros (l & Hrep & He & Hnd & Hc & Hsz).
  destruct (good_split _ _ _ _ _ _ Hrep He)
    as (l1 & n & l2 & nd & -> & Hn & Hkv & He1 & He2 & Hl1 & Hl2).
  rewrite fmap_app in Hnd, Hc. rewrite fmap_cons in Hnd, Hc.
  simpl in Hnd.
  rewrite (zip_with_app pair kvs1.*1 (k :: kvs2.*1) l1 (n :: l2)) in Hc
    by (by rewrite length_fmap).
  assert (LRUCache.cache s !! k = Some n) as Hk.
  { rewrite Hc. apply elem_of_list_to_map_1.
    - rewrite <-(zip_with_app pair kvs1.*1 (k :: kvs2.*1) l1 (n :: l2))
        by (by rewrite length_fmap).
      rewrite fst_zip; [done|].
      rewrite !length_app, !length_fmap. simpl. rewrite length_fmap. lia.
    - rewrite elem_of_app. right. by left. }
  destruct (getitem_hit _ _ _ _ _ _ Hrep Hk Hn) as (h' & Hrun & Hc' & Hsame).
  injection Hkv as Hkey Hval. rewrite Hval in Hrun.
  eexists. split; [done|]. split; [|done].
  exists (n :: l1 ++ l2). split_and!.
  - by split.
  - change (entries h' (n :: l1 ++ l2) = (k, v) :: kvs1 ++ kvs2).
    rewrite (entries_same _ _ _ Hsame), (entries_cons _ _ _ _ Hn).
    rewrite entries_app, He1, He2. unfold kv. by rewrite Hkey, Hval.
  - rewrite fmap_cons, fmap_app. simpl.
    by rewrite (Permutation_middle kvs1.*1 kvs2.*1 k).
  - change (LRUCache.cache s =
            list_to_map ((k, n) :: zip (kvs1 ++ kvs2).*1 (l1 ++ l2))).
    rewrite Hc, fmap_app.
    rewrite (zip_with_app pair kvs1.*1 kvs2.*1 l1 l2)
      by (by rewrite length_fmap).
    change (zip (k :: kvs2.*1) (n :: l2)) with ((k, n) :: zip kvs2.*1 l2).
    apply list_to_map_proper; [|symmetry; apply Permutation_middle].
    change ((k, n) :: zip kvs2.*1 l2) with (zip (k :: kvs2.*1) (n :: l2)).
    rewrite <-(zip_with_app pair kvs1.*1 (k :: kvs2.*1) l1 (n :: l2))
      by (by rewrite length_fmap).
    rewrite fst_zip; [done|].
    rewrite !length_app, !length_fmap. simpl. rewrite length_fmap. lia.
  - simpl. rewrite Hsz, !length_app. simpl. lia.
Qed.

Lemma good_getitem_miss s kvs k :
  good s kvs → k ∉ kvs.*1 →
  LRUCache.__getitem__ k s = (Raise KeyError, s).
Proof.
  intros Hg Hk. apply getitem_miss.
  pose proof (good_contains _ _ k Hg) as Hc.
  unfold LRUCache.__contains__ in Hc. revert Hc. run.
  rewrite (bool_decide_eq_false_2 (k ∈ kvs.*1)) by done.
  intros [= Hc]. apply bool_decide_eq_false in Hc.
  by apply eq_None_not_Some.
Qed.

Lemma exec_refines ops s kvs :
  good s kvs → (1 ≤ LRUCache.maxsize s)%Z →
  (Z.of_nat (length kvs) ≤ LRUCache.maxsize s)%Z →
  disciplined (LRUCache.maxsize s) ops kvs →
  ∃ s', exec ops s = ((lru_run (LRUCache.maxsize s) ops kvs).1, s') ∧
        good s' (lru_run (LRUCache.maxsize s) ops kvs).2 ∧
        LRUCache.maxsize s' = LRUCache.maxsize s ∧
        (Z.of_nat (length (lru_run (LRUCache.maxsize s) ops kvs).2)
         ≤ LRUCache.maxsize s)%Z.
Proof.
  revert s kvs. induction ops as [|o ops IH]; intros s kvs Hg Hpos Hlen Hd.
  - by exists s.
  - destruct Hd as [Ho Hd].
    assert (∀ r s1 kvs1,
              exec_op o s = (r, s1) →
              lru_step (LRUCache.maxsize s) o kvs = (r, kvs1) →
              good s1 kvs1 → LRUCache.maxsize s1 = LRUCache.maxsize s →
              (Z.of_nat (length kvs1) ≤ LRUCache.maxsize s)%Z →
              ∃ s', exec (o :: ops) s =
                      ((lru_run (LRUCache.maxsize s) (o :: ops) kvs).1, s') ∧
                    good s' (lru_run (LRUCache.maxsize s) (o :: ops) kvs).2 ∧
                    LRUCache.maxsize s' = LRUCache.maxsize s ∧
                    (Z.of_nat
                       (length (lru_run (LRUCache.maxsize s) (o :: ops) kvs).2)
                     ≤ LRUCache.maxsize s)%Z) as Hstep.
    { intros r s1 kvs1 Hrun Habs Hg1 Hm1 Hlen1.
      rewrite Habs in Hd. simpl in Hd. rewrite <-Hm1 in Hd, Hlen1.
      destruct (IH s1 kvs1 Hg1) as (s' & Hrun' & Hg' & Hm' & Hlen');
        [by rewrite Hm1|done..|].
      rewrite Hm1 in Hrun', Hg', Hm', Hlen'.
      exists s'. simpl. rewrite Hrun, Habs, Hrun'.
      by destruct (lru_run (LRUCache.maxsize s) ops kvs1). }
    destruct o as [k v|k].
    + destruct (good_setitem s kvs k v) as (s1 & Hrun & Hg1 & Hm1);
        [done..|].
      eapply Hstep; [|reflexivity|done..|].
      * simpl. unfold mbind, M_bind, bind. by rewrite Hrun.
      * rewrite length_take. lia.
    + destruct (lru_take k kvs) as [[v rest]|] eqn:Ht.
      * destruct (lru_take_Some _ _ _ _ Ht) as (kvs1 & kvs2 & -> & -> & _).
        destruct (good_getitem_hit _ _ _ _ _ Hg) as (s1 & Hrun & Hg1 & Hm1).
        eapply Hstep; [|by simpl; rewrite Ht|done..|].
        -- simpl. unfold mbind, M_bind, bind. by rewrite Hrun.
        -- rewrite length_app in Hlen. simpl in *.
           rewrite length_app. lia.
      * eapply Hstep; [|by simpl; rewrite Ht|done..].
        simpl. unfold mbind, M_bind, bind.
        by rewrite (good_getitem_miss _ _ _ Hg (lru_take_None _ _ Ht)).
Qed.

(** X4: a new cache of capacity at least 1, used by lookups and by
    insertions of keys that are not in it at that moment, behaves like
    the list of its entries kept in order of use: every operation has
    the outcome the list gives (a lookup returns the value last inserted
    for the key, or raises [KeyError] when the key is not there or was
    dropped), and in the end [items()], [in] and [len] agree with the
    list, which has no key twice and at most [c] entries. *)
Theorem X4_behaves_as_lru_list (c : Z) (ops : list (op K V)) :
  (1 ≤ c)%Z → disciplined c ops [] →
  ∃ s', exec ops (LRUCache.mk ∅ ∅ None 0 c) = ((lru_run c ops []).1, s') ∧
        LRUCache.items (length (lru_run c ops []).2) s' =
          (Ret (Some (lru_run c ops []).2), s') ∧
        (∀ k, LRUCache.__contains__ k s' =
                (Ret (bool_decide (k ∈ (lru_run c ops []).2.*1)), s')) ∧
        LRUCache.__len__ s' =
          (Ret (Z.of_nat (length (lru_run c ops []).2)), s') ∧
        (Z.of_nat (length (lru_run c ops []).2) ≤ c)%Z ∧
        NoDup (lru_run c ops []).2.*1.
Proof.
  intros Hc Hd.
  destruct (exec_refines ops (LRUCache.mk ∅ ∅ None 0 c) [] (good_init c))
    as (s' & Hrun & Hg & _ & Hlen); [simpl; lia..|done|].
  simpl in Hrun, Hg, Hlen. exists s'. split_and!; [done| | | |done|].
  - apply good_items; [done|lia].
  - intros k. by apply good_contains.
  - by apply good_len.
  - by destruct Hg as (l & _ & _ & Hnd & _).
Qed.
End Refinement.

(** X4 at work: capacity 2; key 1 is looked up before key 3 is put, so
    key 2 is the one dropped. *)
Lemma X4_witness :
  ∃ s', exec [Put 1 10; Put 2 20; Get 1; Put 3 30; Get 2]%Z (new 2) =
          ([Ret None; Ret None; Ret (Some 10%Z); Ret None; Raise KeyError],
           s') ∧
        LRUCache.items 2 s' = (Ret (Some [(3, 30); (1, 10)]%Z), s').
Proof.
  destruct (X4_behaves_as_lru_list 2
              [Put 1 10; Put 2 20; Get 1; Put 3 30; Get 2]%Z)
    as (s' & Hrun & Hitems & _).
  - lia.
  - simpl. split_and!; try exact I;
      apply (bool_decide_unpack _); vm_compute; exact I.
  - exists s'. split; [exact Hrun|exact Hitems].
Defined.

(** * Invariants of the reachable states *)

Section Reachable.
Context {K V : Type} `{Countable K}.
Implicit Types (self s : LRUCache.t K V) (l : list loc).
Implicit Types (h : gmap loc (ListHead.t K V)) (kvs : list (K * V)).

Ltac run :=
  unfold mbind, M_bind, bind, LRUCache.gets,
    ret, raise, LRUCache.set_queue, LRUCache.set_size,
    LRUCache.set_cache, LRUCache.set_nodes, LRUCache.call, LRUCache.attr;
  simpl.

Lemma dlseg_unique h q t t' i i1 i2 j1 j2 :
  dlseg h i i1 t q j1 → q ∉ t → dlseg h i i2 t' q j2 → q ∉ t' → t = t'.
Proof.
  revert t' i i1 i2. induction t as [|a t IH]; intros t' i i1 i2.
  - intros [-> _] _. destruct t' as [|a' t']; [done|].
    intros [-> _] Hq. exfalso. apply Hq. by left.
  - intros [-> (nd & Hnd & _ & Hs)] Hq.
    apply not_elem_of_cons in Hq as [Hqa Hq].
    destruct t' as [|a' t'].
    + by intros [-> _].
    + intros [-> (nd' & Hnd' & _ & Hs')] Hq'.
      apply not_elem_of_cons in Hq' as [_ Hq'].
      rewrite Hnd in Hnd'. injection Hnd' as <-. f_equal. eauto.
Qed.

(** The object determines the list of its nodes. *)
Lemma rep_unique s l l' : rep s l → rep s l' → l = l'.
Proof.
  intros [Hq [Hnd Hc]] [Hq' [Hnd' Hc']]. rewrite Hq in Hq'.
  destruct l as [|q t], l' as [|q' t']; try done.
  injection Hq' as <-.
  destruct Hc as [z [_ (nd & Hn & _ & Hs)]].
  destruct Hc' as [z' [_ (nd' & Hn' & _ & Hs')]].
  rewrite Hn in Hn'. injection Hn' as <-.
  apply NoDup_cons in Hnd as [Hqt _]. apply NoDup_cons in Hnd' as [Hqt' _].
  f_equal. by eapply dlseg_unique.
Qed.

(** With [maxsize] at least 1, [size] is the number of nodes of the
    list in every reachable state. *)
Lemma reachable_size c s :
  (1 ≤ c)%Z → reachable c s →
  LRUCache.maxsize s = c ∧
  ∃ l, rep s l ∧ LRUCache.size s = Z.of_nat (length l).
Proof.
  intros Hc.
  induction 1 as [|s k v Hr IH|s k Hr IH|s k _ IH|s _ IH|s fuel _ IH
                  |s fr _ IH|s fr _ IH].
  - split; [done|]. exists []. split; [|done].
    split; [done|]. split; [apply NoDup_nil_2|done].
  - destruct IH as [Hm (l & Hrep & Hsz)].
    destruct (setitem_spec s l k v Hrep) as (Hx & h1 & _ & Hc1 & Hcase).
    assert (Z.of_nat (length (fresh (dom (LRUCache.nodes s)) :: l))
            = (LRUCache.size s + 1)%Z) as Hsz1 by (simpl; lia).
    case_bool_decide as Hb.
    + destruct Hcase as (t & z & ndz & E & Hz & Hcase).
      destruct (_ !! ListHead.key ndz).
      * destruct Hcase as (h2 & -> & Hc2 & _). split; [done|].
        destruct t as [|a t].
        { destruct l; [simpl in *; lia|]. by destruct l. }
        exists (a :: t). split.
        -- split; [|done]. simpl. by injection E as ->.
        -- simpl. rewrite Hsz. apply (f_equal length) in E.
           simpl in E. rewrite length_app in E. simpl in E. lia.
      * rewrite Hcase. split; [done|]. eexists. split; [|by symmetry].
        by split.
    + rewrite Hcase. split; [done|]. eexists. split; [|by symmetry].
      by split.
  - destruct IH as [Hm (l & Hrep & Hsz)].
    destruct (LRUCache.cache s !! k) as [n|] eqn:Hk;
      [|rewrite getitem_miss by done; eauto].
    destruct (reachable_inv _ _ Hr) as (l' & Hrep' & Hd).
    rewrite <-(rep_unique _ _ _ Hrep Hrep') in Hd.
    destruct (Hd _ _ Hk) as (Hin & nd & Hnd & _).
    apply list_elem_of_split in Hin as (l1 & l2 & ->).
    destruct (getitem_hit _ _ _ _ _ _ Hrep Hk Hnd) as (h' & -> & Hc' & _).
    split; [done|]. exists (n :: l1 ++ l2). split; [by split|].
    simpl. rewrite Hsz, !length_app. simpl. lia.
  - done.
  - done.
  - by rewrite items_state.
  - unfold LRUCache.__iter__. by rewrite resume_state.
  - unfold LRUCache.iteritems. by rewrite resume_state.
Qed.

(** X5: in every reachable state [items()] returns (the loop comes back
    to [self.queue]), and its result shows every key of the dict, with
    the value that [cache[key]] returns. *)
Theorem X5_items_shows_every_key (c : Z) s :
  reachable c s →
  ∃ es, (∀ fuel, length es ≤ S fuel →
           LRUCache.items fuel s = (Ret (Some es), s)) ∧
        ∀ k, (LRUCache.__contains__ k s).1 = Ret true →
             ∃ v, (k, v) ∈ es ∧ (LRUCache.__getitem__ k s).1 = Ret v.
Proof.
  intros Hr. destruct (reachable_inv _ _ Hr) as (l & Hrep & Hd).
  exists (entries (LRUCache.nodes s) l). split.
  - intros fuel Hfuel. apply items_spec; [done|].
    by rewrite <-(entries_length_cyc (LRUCache.nodes s) l) by apply Hrep.
  - intros k. unfold LRUCache.__contains__. run. intros [= Hk].
    apply bool_decide_eq_true in Hk as [n Hk].
    destruct (Hd _ _ Hk) as (Hin & nd & Hnd & Hkey).
    apply list_elem_of_split in Hin as (l1 & l2 & ->).
    destruct (getitem_hit _ _ _ _ _ _ Hrep Hk Hnd) as (h' & -> & _).
    exists (ListHead.value nd). split; [|done].
    rewrite entries_app, (entries_cons _ _ _ _ Hnd), elem_of_app.
    right. unfold kv. rewrite Hkey. by left.
Qed.

(** X6: when [maxsize] is at least 1, [len] is, in every reachable state,
    the number of pairs that [items()] returns (the number of nodes of
    the list, which can exceed the number of keys of the dict). *)
Theorem X6_len_counts_items (c : Z) s :
  (1 ≤ c)%Z → reachable c s →
  ∃ es, LRUCache.items (length es) s = (Ret (Some es), s) ∧
        LRUCache.__len__ s = (Ret (Z.of_nat (length es)), s).
Proof.
  intros Hc Hr. destruct (reachable_size c s Hc Hr) as (_ & l & Hrep & Hsz).
  pose proof (entries_length_cyc (LRUCache.nodes s) l (proj2 Hrep)) as Hlen.
  exists (entries (LRUCache.nodes s) l). split.
  - apply items_spec; [done|lia].
  - unfold LRUCache.__len__. run. by rewrite Hlen, Hsz.
Qed.

Lemma omap_attr_length {A} (f : ListHead.t K V → A) h l :
  (∀ a, a ∈ l → is_Some (h !! a)) →
  length (omap (λ a, f <$> h !! a) l) = length l.
Proof.
  induction l as [|a l IH]; intros Ha; [done|].
  destruct (Ha a) as [nd Hnd]; [by left|].
  change (omap (λ a, f <$> h !! a) (a :: l))
    with (match f <$> h !! a with
          | Some y => y :: omap (λ a, f <$> h !! a) l
          | None => omap (λ a, f <$> h !! a) l
          end).
  rewrite Hnd. simpl. f_equal. apply IH. intros b Hb. apply Ha. by right.
Qed.

(** X7: in every reachable state the first values of [__iter__] are the
    keys, and those of [iteritems] the pairs, that [items()] returns, in
    the same order; resumed once more, the generators do not stop but
    yield the first entry again. *)
Theorem X7_generators_follow_items (c : Z) s :
  reachable c s →
  ∃ es, LRUCache.items (length es) s = (Ret (Some es), s) ∧
        (islice LRUCache.__iter__ (length es) LRUCache.Created s).1
          = es.*1 ∧
        (islice LRUCache.iteritems (length es) LRUCache.Created s).1
          = es ∧
        ∀ e rest, es = e :: rest →
          (islice LRUCache.__iter__ (S (length es)) LRUCache.Created s).1
            = es.*1 ++ [e.1] ∧
          (islice LRUCache.iteritems (S (length es)) LRUCache.Created s).1
            = es ++ [e].
Proof.
  intros Hr. destruct (reachable_inv _ _ Hr) as (l & Hrep & _).
  pose proof (entries_length_cyc (LRUCache.nodes s) l (proj2 Hrep)) as Hlen.
  exists (entries (LRUCache.nodes s) l). rewrite Hlen.
  split; [apply items_spec; [done|lia]|].
  destruct l as [|q t]; [done|].
  pose proof Hrep as [Hq [Hnd [z Hs]]].
  assert (∀ A (f : ListHead.t K V → A),
            islice (LRUCache.resume f) (length (q :: t)) LRUCache.Created s
            = (omap (λ a, f <$> LRUCache.nodes s !! a) (q :: t),
               LRUCache.Suspended z)) as Hfirst.
  { intros A f. apply islice_created; done. }
  assert (∃ ndq ndz, LRUCache.nodes s !! q = Some ndq ∧
            LRUCache.nodes s !! z = Some ndz ∧ ListHead.next ndz = q)
    as (ndq & ndz & Hnq & Hnz & Hzq).
  { destruct (snoc_cases (q :: t)) as (t' & z' & E); [done|].
    pose proof Hs as Hs'. rewrite E in Hs'.
    destruct (dlseg_snoc _ _ _ _ _ _ _ Hs') as [-> (ndz & Hnz & Hzq)].
    destruct Hs as [_ (ndq & Hnq & _)]. by exists ndq, ndz. }
  assert (∀ A (f : ListHead.t K V → A),
            (islice (LRUCache.resume f) (S (length (q :: t)))
               LRUCache.Created s).1
            = omap (λ a, f <$> LRUCache.nodes s !! a) (q :: t) ++ [f ndq])
    as Hwrap.
  { intros A f. rewrite <-Nat.add_1_r.
    rewrite (islice_app f _ 1 _ _ _ _ (Hfirst A f)).
    - rewrite <-Hzq in Hnq.
      by rewrite islice_S, (resume_suspended f _ _ _ _ Hnz Hnq).
    - apply omap_attr_length. intros a Ha.
      by apply (cyc_elem _ (q :: t)); [apply Hrep|]. }
  unfold LRUCache.__iter__, LRUCache.iteritems. rewrite !Hfirst.
  split_and!.
  - change (omap (λ a, ListHead.key <$> LRUCache.nodes s !! a) (q :: t)
            = (entries (LRUCache.nodes s) (q :: t)).*1).
    apply omap_key_entries.
  - done.
  - intros e rest He. rewrite !Hwrap.
    rewrite (entries_cons _ _ _ _ Hnq) in He. injection He as <- _.
    split; [|done]. by rewrite omap_key_entries.
Qed.

(** X8: in a reachable state, a lookup that returns can be repeated at
    once: the second one returns the same value and changes nothing, the
    entry being in front already. *)
Theorem X8_getitem_twice (c : Z) s (k : K) (v : V) s' :
  reachable c s →
  LRUCache.__getitem__ k s = (Ret v, s') →
  LRUCache.__getitem__ k s' = (Ret v, s').
Proof.
  intros Hr Hget. destruct (reachable_inv _ _ Hr) as (l & Hrep & Hd).
  destruct (LRUCache.cache s !! k) as [n|] eqn:Hk;
    [|by rewrite getitem_miss in Hget].
  destruct (Hd _ _ Hk) as (Hin & nd & Hnd & _).
  apply list_elem_of_split in Hin as (l1 & l2 & ->).
  destruct (getitem_hit _ _ _ _ _ _ Hrep Hk Hnd) as (h' & Hrun & _ & Hsame).
  rewrite Hrun in Hget. injection Hget as <- <-.
  destruct (same_data_lookup _ _ _ _ Hsame Hnd) as (nd' & Hnd' & Hkv).
  unfold LRUCache.__getitem__, LRUCache._update_node. run. rewrite Hk.
  simpl. rewrite bool_decide_eq_false_2 by (by intros ?). simpl.
  rewrite Hnd'. by injection Hkv as _ ->.
Qed.

Lemma setitem_on_new_without_capacity (m : Z) (k : K) (v : V) :
  (m ≤ 0)%Z →
  ∃ s', LRUCache.__setitem__ k v (LRUCache.mk ∅ ∅ None 0 m) = (Ret (), s') ∧
        (∀ k', LRUCache.__contains__ k' s' = (Ret false, s')) ∧
        LRUCache.__len__ s' = (Ret 0%Z, s') ∧
        LRUCache.__getitem__ k s' = (Raise KeyError, s') ∧
        ∀ fuel, LRUCache.items fuel s' = (Ret (Some [(k, v)]), s').
Proof.
  intros Hm.
  destruct (setitem_spec (LRUCache.mk ∅ ∅ None 0 m) [] k v)
    as (_ & h1 & Hsame & Hc1 & Hcase).
  { split; [done|]. split; [apply NoDup_nil_2|done]. }
  simpl in Hcase, Hsame.
  rewrite bool_decide_eq_true_2 in Hcase by lia.
  destruct Hcase as (t & z & ndz & E & Hz & Hcase).
  change ([] ++ [fresh (dom (∅ : gmap loc (ListHead.t K V)))] = t ++ [z])
    in E.
  apply app_inj_tail in E as [<- <-].
  set (x := fresh (dom (∅ : gmap loc (ListHead.t K V)))) in *.
  destruct (same_data_lookup _ _ _ _ Hsame (lookup_insert_eq _ _ _))
    as (nd' & Hnd' & Hkv).
  rewrite Hz in Hnd'. injection Hnd' as <-. injection Hkv as Hkey Hval.
  rewrite Hkey, lookup_insert_eq in Hcase.
  destruct Hcase as (h2 & Hrun & Hc2 & Hsame2).
  rewrite delete_insert_eq, delete_empty in Hrun.
  eexists. split; [exact Hrun|]. split_and!.
  - intros k'. unfold LRUCache.__contains__. run.
    by rewrite lookup_empty, bool_decide_eq_false_2 by (by intros [? ?]).
  - done.
  - by apply getitem_miss.
  - intros fuel. rewrite (items_spec _ [x]); [|by split|simpl; lia].
    cbn [LRUCache.nodes].
    rewrite (entries_same _ _ _ Hsame2), (entries_cons _ _ _ _ Hz).
    unfold kv. by rewrite Hkey, Hval.
Qed.

(** X9: on a new cache whose [maxsize] is zero or negative the first
    assignment returns, but the key is deleted from the dict at once:
    no key is in the cache, [len] is 0 and [cache[key]] raises
    [KeyError]; the node stays in the list, so [items()] still shows the
    entry. *)
Theorem X9_put_without_capacity (m : Z) (k : K) (v : V) :
  (m ≤ 0)%Z →
  ∃ s', LRUCache.__setitem__ k v (LRUCache.mk ∅ ∅ None 0 m) = (Ret (), s') ∧
        (∀ k', LRUCache.__contains__ k' s' = (Ret false, s')) ∧
        LRUCache.__len__ s' = (Ret 0%Z, s') ∧
        LRUCache.__getitem__ k s' = (Raise KeyError, s') ∧
        ∀ fuel, LRUCache.items fuel s' = (Ret (Some [(k, v)]), s').
Proof. apply setitem_on_new_without_capacity. Qed.

(** X13: in a reachable state, after [cache[key] = value], whether the
    assignment returns or raises [KeyError], the pair [(key, value)] is
    the first one that [items()] returns. *)
Theorem X13_put_entry_comes_first (c : Z) s (k : K) (v : V) :
  reachable c s →
  ∃ es n, ∀ fuel, n ≤ fuel →
    LRUCache.items fuel (LRUCache.__setitem__ k v s).2 =
      (Ret (Some ((k, v) :: es)), (LRUCache.__setitem__ k v s).2).
Proof.
  intros Hr. destruct (reachable_inv _ _ Hr) as (l & Hrep & _).
  destruct (setitem_spec s l k v Hrep) as (Hx & h1 & Hsame & Hc1 & Hcase).
  set (x := fresh (dom (LRUCache.nodes s))) in *.
  destruct (same_data_lookup _ h1 x (ListHead.mk x x k v) Hsame)
    as (ndx & Hndx & Hkv); [apply lookup_insert_eq|].
  assert (∀ s' rest, rep s' (x :: rest) →
            same_data h1 (LRUCache.nodes s') →
            ∀ fuel, length rest ≤ fuel →
              LRUCache.items fuel s' =
                (Ret (Some ((k, v) :: entries (LRUCache.nodes s') rest)), s'))
    as Hitems.
  { intros s' rest Hrep' Hsame' fuel Hfuel.
    destruct (same_data_lookup _ _ _ _ Hsame' Hndx) as (nd' & Hnd' & Hkv').
    rewrite (items_spec _ _ _ Hrep') by (simpl; lia).
    rewrite (entries_cons _ _ _ _ Hnd'). by rewrite Hkv', Hkv. }
  assert (∃ es n, ∀ fuel, n ≤ fuel →
            LRUCache.items fuel
              (LRUCache.mk h1 (<[k:=x]> (LRUCache.cache s)) (Some x)
                 (LRUCache.size s + 1) (LRUCache.maxsize s)) =
              (Ret (Some ((k, v) :: es)),
               LRUCache.mk h1 (<[k:=x]> (LRUCache.cache s)) (Some x)
                 (LRUCache.size s + 1) (LRUCache.maxsize s))) as Hkeep.
  { exists (entries h1 l), (length l). intros fuel Hfuel.
    by rewrite (Hitems _ l); [| |apply same_data_refl|]. }
  case_bool_decide as Hb; [|by rewrite Hcase].
  destruct Hcase as (t & z & ndz & E & Hz & Hcase).
  destruct (_ !! ListHead.key ndz); [|by rewrite Hcase].
  destruct Hcase as (h2 & -> & Hc2 & Hsame2). simpl.
  assert (∃ rest, match t with [] => [z] | _ => t end = x :: rest)
    as (rest & Ht).
  { destruct t as [|a t]; simpl in E; injection E as <-; eauto. }
  rewrite Ht in Hc2. exists (entries h2 rest), (length rest).
  intros fuel Hfuel. by rewrite (Hitems _ rest).
Qed.

Lemma puts_app kvs1 kvs2 s :
  puts kvs1 s = (Ret (), (puts kvs1 s).2) →
  puts (kvs1 ++ kvs2) s = puts kvs2 (puts kvs1 s).2.
Proof.
  revert s. induction kvs1 as [|[k v] kvs1 IH]; intros s; [done|].
  simpl. unfold mbind, M_bind, bind.
  destruct (LRUCache.__setitem__ k v s) as [[[]|e] s1]; [|done].
  apply IH.
Qed.

Lemma puts_app_ret kvs1 kvs2 s s' :
  puts (kvs1 ++ kvs2) s = (Ret (), s') →
  puts kvs1 s = (Ret (), (puts kvs1 s).2).
Proof.
  revert s. induction kvs1 as [|[k v] kvs1 IH]; intros s; [done|].
  simpl. unfold mbind, M_bind, bind.
  destruct (LRUCache.__setitem__ k v s) as [[[]|e] s1]; [|done].
  apply IH.
Qed.

Lemma puts_ret_maxsize kvs s s' :
  inv s → puts kvs s = (Ret (), s') →
  LRUCache.maxsize s' = LRUCache.maxsize s.
Proof.
  revert s. induction kvs as [|[k v] kvs IH]; intros s Hinv.
  - by intros [= <-].
  - simpl. unfold mbind, M_bind, bind.
    destruct (LRUCache.__setitem__ k v s) as [[[]|e] s1] eqn:E; [|done].
    intros Hrun. rewrite (IH s1); [|..|done].
    + destruct Hinv as (l & Hrep & _).
      destruct (setitem_spec s l k v Hrep) as (_ & h1 & _ & _ & Hcase).
      case_bool_decide.
      * destruct Hcase as (t & z & ndz & _ & _ & Hm).
        destruct (_ !! ListHead.key ndz); [|by rewrite Hm in E].
        destruct Hm as (h2 & Hm & _). rewrite Hm in E.
        by injection E as <-.
      * rewrite Hcase in E. by injection E as <-.
    + replace s1 with (LRUCache.__setitem__ k v s).2 by (by rewrite E).
      by apply setitem_inv.
Qed.

(** X10: a run of assignments to a new cache with [maxsize >= 0], with
    any keys, repeated or not: if the run returns, so does every initial
    part of it, and [size] is between 0 and [maxsize] after it. *)
Theorem X10_size_bound_when_puts_return (c : Z) kvs1 kvs2 s' :
  (0 ≤ c)%Z →
  puts (kvs1 ++ kvs2) (LRUCache.mk ∅ ∅ None 0 c) = (Ret (), s') →
  ∃ s1, puts kvs1 (LRUCache.mk ∅ ∅ None 0 c) = (Ret (), s1) ∧
        LRUCache.__len__ s1 = (Ret (LRUCache.size s1), s1) ∧
        (0 ≤ LRUCache.size s1 ≤ c)%Z ∧ LRUCache.maxsize s1 = c.
Proof.
  intros Hc Hrun. pose proof (puts_app_ret _ _ _ _ Hrun) as Hrun1.
  assert (inv (LRUCache.mk ∅ ∅ None 0 c : LRUCache.t K V)) as Hinv.
  { apply (reachable_inv c), reach_init. }
  pose proof (puts_ret_maxsize _ _ _ Hinv Hrun1) as Hm.
  pose proof (puts_ret_bound _ _ _ Hinv (conj (Z.le_refl 0) Hc) Hrun1) as Hb.
  simpl in Hm. rewrite Hm in Hb. by eexists.
Qed.
End Reachable.

(** * The keys called last

    [reverse (remove_dups cs)] lists the keys of [cs] once each, the one
    called last first; a further call moves its key to the front. *)

Section RecentKeys.
Context {A : Type} `{EqDecision A}.
Implicit Types (x : A) (l : list A).

Lemma filter_ne_id x l : x ∉ l → filter (λ y, y ≠ x) l = l.
Proof.
  induction l as [|y l IH]; [done|].
  intros [Hy Hl]%not_elem_of_cons.
  rewrite filter_cons_True by done. by rewrite IH.
Qed.

Lemma filter_ne_split x l1 l2 :
  NoDup (l1 ++ x :: l2) → filter (λ y, y ≠ x) (l1 ++ x :: l2) = l1 ++ l2.
Proof.
  intros Hnd. apply NoDup_app in Hnd as (_ & Hd & Hnd2).
  apply NoDup_cons in Hnd2 as [Hx2 _].
  rewrite filter_app, filter_cons_False by (by intros []).
  rewrite !filter_ne_id; [done..|].
  intros Hx. apply (Hd _ Hx). left.
Qed.

Lemma filter_ne_reverse x l :
  filter (λ y, y ≠ x) (reverse l) = reverse (filter (λ y, y ≠ x) l).
Proof.
  induction l as [|y l IH]; [done|].
  rewrite reverse_cons, filter_app, IH.
  destruct (decide (y = x)) as [->|Hy].
  - rewrite !filter_cons_False by (by intros []).
    by rewrite filter_nil, app_nil_r.
  - rewrite !filter_cons_True by done.
    by rewrite filter_nil, reverse_cons.
Qed.

Lemma remove_dups_snoc l x :
  remove_dups (l ++ [x]) = filter (λ y, y ≠ x) (remove_dups l) ++ [x].
Proof.
  induction l as [|y l IH]; [done|].
  simpl. rewrite IH. destruct (decide (y = x)) as [->|Hy].
  - case_decide as Hin; [|by destruct Hin; apply elem_of_app; right; left].
    case_decide; [done|]. by rewrite filter_cons_False by (by intros []).
  - case_decide as Hin; case_decide as Hin'.
    + done.
    + apply elem_of_app in Hin as [Hin|Hin%list_elem_of_singleton]; done.
    + destruct Hin. apply elem_of_app. by left.
    + by rewrite filter_cons_True by done.
Qed.

Lemma take_filter_hit x l j :
  NoDup l → x ∈ take (S j) l →
  filter (λ y, y ≠ x) (take (S j) l) = take j (filter (λ y, y ≠ x) l).
Proof.
  revert j. induction l as [|y l IH]; intros j Hnd Hx.
  { by apply elem_of_nil in Hx. }
  apply NoDup_cons in Hnd as [Hy Hnd]. rewrite firstn_cons in Hx |- *.
  destruct (decide (y = x)) as [->|Hyx].
  - rewrite !filter_cons_False by (by intros []).
    rewrite !filter_ne_id; [done..|].
    intros Hin. apply Hy. exact (subseteq_take j l _ Hin).
  - rewrite !filter_cons_True by done.
    apply elem_of_cons in Hx as [->|Hx]; [done|].
    destruct j as [|j]; [by apply elem_of_nil in Hx|].
    by rewrite firstn_cons, IH.
Qed.

Lemma take_filter_miss x l j :
  x ∉ take j l → take j (filter (λ y, y ≠ x) l) = take j l.
Proof.
  revert j. induction l as [|y l IH]; intros j Hx; [done|].
  destruct j as [|j]; [done|]. rewrite firstn_cons in Hx.
  apply not_elem_of_cons in Hx as [Hxy Hx].
  rewrite filter_cons_True by done. by rewrite !firstn_cons, IH.
Qed.

Lemma recent_snoc l x j :
  take (S j) (reverse (remove_dups (l ++ [x]))) =
    x :: take j (filter (λ y, y ≠ x) (reverse (remove_dups l))).
Proof.
  rewrite remove_dups_snoc, reverse_app, reverse_singleton.
  by rewrite filter_ne_reverse.
Qed.
End RecentKeys.

(** * The decorator with an LRUCache behind it *)

Section MemoLru.
Context {Args Kw B : Type} `{Countable Args, Countable Kw}.
Implicit Types (func : Args → Kw → B) (c : LRUCache.t (Args * Kw) B).
Implicit Types (kvs : list (Args * Kw * B)).

(** The keys of the entries stored for a list of keys. *)
Lemma memo_entries_keys func cs :
  ((λ key, (key, func key.1 key.2)) <$> cs).*1 = cs.
Proof. rewrite <- list_fmap_compose. apply list_fmap_id. Qed.

(** One call: the key called comes first, whether it was found or
    stored. *)
Lemma cached_func_lru func args kwargs c cs :
  good c ((λ key, (key, func key.1 key.2)) <$>
            take (Z.to_nat (LRUCache.maxsize c)) (reverse (remove_dups cs))) →
  (1 ≤ LRUCache.maxsize c)%Z →
  ∃ c',
    cached_func func args kwargs c = (Ret (func args kwargs), c') ∧
    good c' ((λ key, (key, func key.1 key.2)) <$>
               take (Z.to_nat (LRUCache.maxsize c))
                 (reverse (remove_dups (cs ++ [(args, kwargs)])))) ∧
    LRUCache.maxsize c' = LRUCache.maxsize c.
Proof.
  intros Hg Hpos.
  destruct (Z.to_nat (LRUCache.maxsize c)) as [|j] eqn:Hj; [lia|].
  rewrite recent_snoc.
  assert (NoDup (take (S j) (reverse (remove_dups cs)))) as Hnd.
  { destruct Hg as (l & _ & _ & Hnd & _). by rewrite memo_entries_keys in Hnd. }
  unfold cached_func. simpl. unfold mbind, M_bind, bind.
  rewrite (good_contains _ _ _ Hg), memo_entries_keys.
  case_bool_decide as Hin.
  - assert (NoDup (reverse (remove_dups cs))) as Hnd'.
    { rewrite reverse_Permutation. apply NoDup_remove_dups. }
    rewrite <- take_filter_hit by done.
    destruct (list_elem_of_split _ _ Hin) as (l1 & l2 & Hl).
    rewrite Hl in Hg, Hnd |- *. rewrite filter_ne_split by done.
    rewrite fmap_app, fmap_cons in Hg.
    destruct (good_getitem_hit _ _ _ _ _ Hg) as (c' & Hrun & Hg' & Hm).
    exists c'. split; [exact Hrun|]. split; [|done].
    rewrite fmap_app. exact Hg'.
  - destruct (good_setitem c _ (args, kwargs) (func args kwargs) Hg)
      as (c1 & Hrun1 & Hg1 & Hm1).
    { by rewrite memo_entries_keys. }
    { done. }
    { rewrite length_fmap, length_take. lia. }
    rewrite Hrun1. rewrite Hj, firstn_cons in Hg1.
    destruct (good_getitem_hit c1 [] (args, kwargs) (func args kwargs) _ Hg1)
      as (c2 & Hrun2 & Hg2 & Hm2).
    exists c2. split; [exact Hrun2|]. split; [|by rewrite Hm2].
    rewrite <- fmap_take, take_take, Nat.min_l in Hg2 by lia.
    rewrite take_filter_miss; [done|].
    intros Hin'. apply Hin.
    rewrite <- (Nat.min_l j (S j)), <- take_take in Hin' by lia.
    exact (subseteq_take _ _ _ Hin').
Qed.

(** Calls one after the other. *)
Lemma calls_app func cs1 cs2 (s s1 s2 : backing Args Kw B) bs1 bs2 :
  calls func cs1 s = (Ret bs1, s1) → calls func cs2 s1 = (Ret bs2, s2) →
  calls func (cs1 ++ cs2) s = (Ret (bs1 ++ bs2), s2).
Proof.
  revert s bs1. induction cs1 as [|[a kw] cs1 IH]; intros s bs1 H1 H2.
  - change ((Ret [], s) = (Ret bs1, s1)) in H1. by injection H1 as <- <-.
  - simpl in H1 |- *. unfold mbind, M_bind, bind in H1 |- *.
    destruct (call_cached func a kw s) as [[b|e] s0]; [|done].
    destruct (calls func cs1 s0) as [[bs|e] s0'] eqn:Hc; [|done].
    change ((Ret (b :: bs), s0') = (Ret bs1, s1)) in H1.
    injection H1 as <- <-. by rewrite (IH _ _ Hc H2).
Qed.

(** All the calls, from the new cache: the last occurrences of the keys,
    read backwards, cut at [maxsize]. *)
Lemma calls_lru func (m : Z) cs :
  (1 ≤ m)%Z →
  ∃ c',
    calls func cs (Lru (LRUCache.mk ∅ ∅ None 0 m)) =
      (Ret ((λ key, func key.1 key.2) <$> cs), Lru c') ∧
    good c' ((λ key, (key, func key.1 key.2)) <$>
               take (Z.to_nat m) (reverse (remove_dups cs))) ∧
    LRUCache.maxsize c' = m.
Proof.
  intros Hm. induction cs as [|[a kw] cs IH] using rev_ind.
  - exists (LRUCache.mk ∅ ∅ None 0 m). split; [done|]. split; [|done].
    change (reverse (remove_dups [])) with (@nil (Args * Kw)).
    rewrite take_nil. apply good_init.
  - destruct IH as (c0 & Hrun0 & Hg0 & Hm0). rewrite <- Hm0 in Hg0.
    destruct (cached_func_lru func a kw c0 cs Hg0) as (c' & Hrun & Hg & Hm');
      [lia|].
    exists c'. rewrite Hm0 in Hg, Hm'. split; [|done].
    rewrite fmap_app. apply (calls_app _ _ _ _ _ _ _ _ Hrun0).
    simpl. unfold mbind, M_bind, bind, call_cached. by rewrite Hrun.
Qed.

(** X11: with [maxsize] at least 1, [lru_cache] builds an [LRUCache],
    and the function it returns is [func] memoized with the least
    recently used key dropped: no call raises, every call returns the
    value of [func] at its arguments, and after the calls [cs] the cache
    holds exactly the [maxsize] keys called last (fewer if fewer were
    called), each once, the most recently called first, each with the
    value of [func] for it; [items()], [in] and [len] show just that. *)
Theorem X11_lru_cache_memoizes (m : Z) func (cs : list (Args * Kw)) :
  (1 ≤ m)%Z →
  let keys := take (Z.to_nat m) (reverse (remove_dups cs)) in
  let kvs := (λ key, (key, func key.1 key.2)) <$> keys in
  lru_cache (Args:=Args) (Kw:=Kw) (B:=B) (Some m)
    = Ret (Lru (LRUCache.mk ∅ ∅ None 0 m)) ∧
  ∃ c',
    calls func cs (Lru (LRUCache.mk ∅ ∅ None 0 m)) =
      (Ret ((λ key, func key.1 key.2) <$> cs), Lru c') ∧
    LRUCache.items (length kvs) c' = (Ret (Some kvs), c') ∧
    (∀ key, LRUCache.__contains__ key c'
            = (Ret (bool_decide (key ∈ keys)), c')) ∧
    LRUCache.__len__ c' = (Ret (Z.of_nat (length keys)), c') ∧
    (Z.of_nat (length kvs) ≤ m)%Z ∧ NoDup kvs.*1 ∧
    Forall (λ e, e.2 = func e.1.1 e.1.2) kvs.
Proof.
  intros Hm keys kvs. split.
  { unfold lru_cache. by rewrite bool_decide_eq_true_2 by lia. }
  destruct (calls_lru func m cs Hm) as (c' & Hrun & Hg & _).
  fold keys in Hg. fold kvs in Hg.
  exists c'. split_and!.
  - done.
  - apply good_items; [done|lia].
  - intros key. rewrite (good_contains _ _ _ Hg). unfold kvs.
    by rewrite memo_entries_keys.
  - rewrite (good_len _ _ Hg). unfold kvs. by rewrite length_fmap.
  - unfold kvs, keys. rewrite length_fmap, length_take. lia.
  - by destruct Hg as (l & _ & _ & Hnd & _).
  - unfold kvs. by apply Forall_fmap, Forall_true.
Qed.
(** X12: a negative [maxsize] is true in [if maxsize], so [lru_cache]
    builds an [LRUCache] with it; the first call of the function it
    returns then raises [KeyError]: the entry is evicted by the
    assignment that stores it, and [return cache[key]] finds no key. *)
Theorem X12_negative_maxsize_first_call (m : Z) func args kwargs :
  (m < 0)%Z →
  lru_cache (Args:=Args) (Kw:=Kw) (B:=B) (Some m)
    = Ret (Lru (LRUCache.mk ∅ ∅ None 0 m)) ∧
  ∃ cache, call_cached func args kwargs (Lru (LRUCache.mk ∅ ∅ None 0 m))
           = (Raise KeyError, cache).
Proof.
  intros Hm. split.
  { unfold lru_cache. by rewrite bool_decide_eq_true_2 by lia. }
  destruct (setitem_on_new_without_capacity m (args, kwargs)
              (func args kwargs)) as (c' & Hrun & _ & _ & Hget & _); [lia|].
  exists (Lru c'). unfold call_cached, cached_func. simpl.
  unfold mbind, M_bind, bind. simpl.
  rewrite lookup_empty, bool_decide_eq_false_2 by (by intros [? ?]).
  by rewrite Hrun, Hget.
Qed.
End MemoLru.

(** * The further properties at work *)

Lemma one_entry_reachable : reachable 1 one_entry.
Proof. apply (reach_setitem 1 (new 1) 7%Z 1%Z), reach_init. Qed.

(** X5 at work, on the cache holding the single key [7]. *)
Lemma X5_witness :
  ∃ es, (∀ fuel, length es ≤ S fuel →
           LRUCache.items fuel one_entry = (Ret (Some es), one_entry)) ∧
        ∀ k, (LRUCache.__contains__ k one_entry).1 = Ret true →
             ∃ v, (k, v) ∈ es ∧ (LRUCache.__getitem__ k one_entry).1 = Ret v.
Proof. exact (X5_items_shows_every_key 1 one_entry one_entry_reachable). Defined.

(** X6 at work, on the same cache. *)
Lemma X6_witness :
  ∃ es, LRUCache.items (length es) one_entry = (Ret (Some es), one_entry) ∧
        LRUCache.__len__ one_entry = (Ret (Z.of_nat (length es)), one_entry).
Proof.
  apply (X6_len_counts_items 1 one_entry); [lia|exact one_entry_reachable].
Defined.

(** X7 at work, on the same cache. *)
Lemma X7_witness :
  ∃ es, LRUCache.items (length es) one_entry = (Ret (Some es), one_entry) ∧
        (islice LRUCache.__iter__ (length es) LRUCache.Created one_entry).1
          = es.*1 ∧
        (islice LRUCache.iteritems (length es) LRUCache.Created one_entry).1
          = es ∧
        ∀ e rest, es = e :: rest →
          (islice LRUCache.__iter__ (S (length es)) LRUCache.Created
             one_entry).1 = es.*1 ++ [e.1] ∧
          (islice LRUCache.iteritems (S (length es)) LRUCache.Created
             one_entry).1 = es ++ [e].
Proof. exact (X7_generators_follow_items 1 one_entry one_entry_reachable). Defined.

(** X8 at work: key [7] looked up twice. *)
Lemma X8_witness :
  LRUCache.__getitem__ 7%Z (LRUCache.__getitem__ 7%Z one_entry).2 =
    (Ret 1%Z, (LRUCache.__getitem__ 7%Z one_entry).2).
Proof.
  apply (X8_getitem_twice 1 one_entry 7%Z 1%Z _ one_entry_reachable).
  vm_compute. reflexivity.
Defined.

(** X9 at work: [maxsize] 0. *)
Lemma X9_witness :
  ∃ s', LRUCache.__setitem__ 7%Z 1%Z (new 0) = (Ret (), s') ∧
        (∀ k', LRUCache.__contains__ k' s' = (Ret false, s')) ∧
        LRUCache.__len__ s' = (Ret 0%Z, s') ∧
        LRUCache.__getitem__ 7%Z s' = (Raise KeyError, s') ∧
        ∀ fuel, LRUCache.items fuel s' = (Ret (Some [(7, 1)%Z]), s').
Proof. apply (X9_put_without_capacity 0 7%Z 1%Z). lia. Defined.

(** X10 at work: key [7] put twice into a cache of capacity 2. *)
Lemma X10_witness :
  ∃ s1, puts [(7, 1)%Z] (new 2) = (Ret (), s1) ∧
        LRUCache.__len__ s1 = (Ret (LRUCache.size s1), s1) ∧
        (0 ≤ LRUCache.size s1 ≤ 2)%Z ∧ LRUCache.maxsize s1 = 2%Z.
Proof.
  apply (X10_size_bound_when_puts_return 2 [(7, 1)%Z] [(7, 2)%Z]
           (put_twice 2)); [lia|].
  vm_compute. reflexivity.
Defined.

(** X11 at work: addition memoized with capacity 2, called four times;
    the second key is dropped by the fourth call. *)
Lemma X11_witness :
  lru_cache (Args:=Z) (Kw:=Z) (B:=Z) (Some 2%Z)
    = Ret (Lru (LRUCache.mk ∅ ∅ None 0 2)) ∧
  ∃ c',
    calls Z.add [(1, 2); (3, 4); (1, 2); (5, 6)]%Z
        (Lru (LRUCache.mk ∅ ∅ None 0 2)) =
      (Ret [3; 7; 3; 11]%Z, Lru c') ∧
    LRUCache.items 2 c' = (Ret (Some [((5, 6), 11); ((1, 2), 3)]%Z), c') ∧
    LRUCache.__contains__ (3, 4)%Z c' = (Ret false, c').
Proof.
  destruct (X11_lru_cache_memoizes 2 Z.add [(1, 2); (3, 4); (1, 2); (5, 6)]%Z)
    as (Hnew & c' & Hrun & Hitems & Hin & _); [lia|].
  split; [exact Hnew|]. exists c'.
  split; [exact Hrun|]. split; [exact Hitems|]. exact (Hin (3, 4)%Z).
Defined.

(** X12 at work: [maxsize] -1. *)
Lemma X12_witness :
  lru_cache (Args:=Z) (Kw:=Z) (B:=Z) (Some (-1)%Z)
    = Ret (Lru (LRUCache.mk ∅ ∅ None 0 (-1))) ∧
  ∃ cache, call_cached Z.add 1%Z 2%Z (Lru (LRUCache.mk ∅ ∅ None 0 (-1)))
           = (Raise KeyError, cache).
Proof. apply (X12_negative_maxsize_first_call (-1) Z.add). lia. Defined.

(** X13 at work, on the cache holding the single key [7]. *)
Lemma X13_witness :
  ∃ es n, ∀ fuel, n ≤ fuel →
    LRUCache.items fuel (LRUCache.__setitem__ 7%Z 2%Z one_entry).2 =
      (Ret (Some ((7, 2)%Z :: es)),
       (LRUCache.__setitem__ 7%Z 2%Z one_entry).2).
Proof.
  exact (X13_put_entry_comes_first 1 one_entry 7%Z 2%Z one_entry_reachable).
Defined.
